(** * intext: sliding-window chunking, per-chunk extraction, final reduction

    A shallow embedding of [src/chunking.ts] and [src/index.ts] together
    with the properties of the extraction pipeline.

    Conventions of the embedding.
    - JavaScript values are the inductive [JsValue]; objects used as
      string-keyed records are finite maps ([gmap string _]).  Only own
      properties are modelled (no prototype chain).  In particular an
      assignment [o[key] = v] is an insertion; for the key [__proto__]
      JavaScript sets the prototype of [o] instead and creates no own
      property, so the theorems about the set of keys of an object built by
      assignment, or about the value kept under a given key, ask that the
      key [__proto__] is not involved.
    - A JavaScript [number] that the program only compares, stores or tests
      for truthiness is kept as its IEEE-754 binary64 bit pattern (a [Z]).
      Counters that start at zero and only grow (chunk ids, character
      offsets, the work pointer) are [nat]; the caller-supplied counts
      [chunkTokens], [overlapTokens] and [concurrency] are arbitrary
      integers ([Z]).
    - A computation that may throw returns [Completion]; loops carry fuel
      and the theorems show that the fuel supplied is always enough.
    - The completion service is a function of the request it receives; the
      order in which its answers arrive is arbitrary (a schedule that every
      theorem about [extract] quantifies over).
    - [JSON.parse], the tokenizer of [token-estimator] and the text of the
      two prompts are parameters.
    - [console.log] output (debug logging) is not modelled; the reason of a
      rejected call, which is only logged, is not modelled either. *)

From Stdlib Require Import ZArith String Ascii.
From stdpp Require Import base option list gmap strings pretty sorting.

#[local] Set Warnings "-register-all".
#[local] Open Scope string_scope.
#[local] Open Scope list_scope.

(** ** Completions *)

Inductive JsError :=
| TypeError
| Error (message : string).

Inductive Completion (A : Type) :=
| Normal (a : A)
| Throw (e : JsError)
| OutOfFuel.
Arguments Normal {A} a.
Arguments Throw {A} e.
Arguments OutOfFuel {A}.

(** ** Strings and arrays of the host language *)

Module JsString.

Fixpoint drop (n : nat) (s : string) : string :=
  match n, s with
  | O, _ => s
  | S n', String _ s' => drop n' s'
  | S _, EmptyString => EmptyString
  end.

(** [s] is the suffix of the text that starts at offset [k]. *)
Fixpoint indexOf_aux (tok s : string) (k : nat) : option nat :=
  if String.prefix tok s then Some k
  else match s with
       | EmptyString => None
       | String _ s' => indexOf_aux tok s' (S k)
       end.

(** [text.indexOf(tok, position)]; [None] stands for [-1]. *)
Definition indexOf (text tok : string) (position : nat) : option nat :=
  let start := position `min` String.length text in
  indexOf_aux tok (drop start text) start.

(** [text.slice(start, end)] for non-negative offsets. *)
Definition slice (text : string) (start end_ : nat) : string :=
  let from := start `min` String.length text in
  let to := end_ `min` String.length text in
  substring from (to - from) text.

End JsString.

Module JsArray.

(** Relative index of [Array.prototype.slice]. *)
Definition relIndex (len k : Z) : Z :=
  if (k <? 0)%Z then Z.max (len + k) 0 else Z.min k len.

Definition slice {A} (l : list A) (start end_ : Z) : list A :=
  let len := Z.of_nat (length l) in
  let from := relIndex len start in
  let to := relIndex len end_ in
  take (Z.to_nat (to - from)) (List.skipn (Z.to_nat from) l).

(** [l[k]] for an integer [k]; [None] stands for [undefined]. *)
Definition get {A} (l : list A) (k : Z) : option A :=
  if (k <? 0)%Z then None else l !! Z.to_nat k.

End JsArray.

(** ** chunking.ts *)

Module Chunk.
Record t := mk {
  id : nat;
  text : string;
  startChar : nat;
  endChar : nat;
  tokens : list string;
}.
End Chunk.

Record TokenPos := { start : nat; end_ : nat }.

(** The [for (const tok of tokens)] loop of [buildChunks]. *)
Fixpoint locateTokens (text : string) (tokens : list string) (searchIdx : nat)
  : list TokenPos :=
  match tokens with
  | [] => []
  | tok :: rest =>
    match JsString.indexOf text tok searchIdx with
    | None =>
      {| start := searchIdx;
         end_ := (searchIdx + String.length tok) `min` String.length text |}
        :: locateTokens text rest (searchIdx + String.length tok)
    | Some found =>
      {| start := found; end_ := found + String.length tok |}
        :: locateTokens text rest (found + String.length tok)
    end
  end.

(** The [while (i < tokens.length)] loop of [buildChunks]. *)
Fixpoint buildChunks_loop (fuel : nat) (text : string) (tokens : list string)
    (tokenCharPositions : list TokenPos) (chunkTokens overlapTokens : Z)
    (i chunkId : nat) (chunks : list Chunk.t) : Completion (list Chunk.t) :=
  if decide (i < length tokens) then
    match fuel with
    | O => OutOfFuel
    | S fuel' =>
      let startToken := i in
      let endToken := Z.min (Z.of_nat i + chunkTokens) (Z.of_nat (length tokens)) in
      let chunkTokensSlice := JsArray.slice tokens (Z.of_nat startToken) endToken in
      match tokenCharPositions !! startToken with
      | None => Throw TypeError
      | Some ps =>
        let startChar := start ps in
        match JsArray.get tokenCharPositions (endToken - 1) with
        | None => Throw TypeError
        | Some pe =>
          let endChar := end_ pe in
          let chunks' :=
            chunks ++ [Chunk.mk chunkId (JsString.slice text startChar endChar)
                                startChar endChar chunkTokensSlice] in
          let step := Z.max 1 (chunkTokens - overlapTokens) in
          buildChunks_loop fuel' text tokens tokenCharPositions
                           chunkTokens overlapTokens
                           (i + Z.to_nat step) (S chunkId) chunks'
        end
      end
    end
  else Normal chunks.

Definition buildChunks_fuel (fuel : nat) (text : string)
    (chunkTokens overlapTokens : Z) (tokenizer : string → list string)
  : Completion (list Chunk.t) :=
  let tokens := tokenizer text in
  if decide (length tokens = 0) then Normal []
  else
    let tokenCharPositions := locateTokens text tokens 0 in
    buildChunks_loop fuel text tokens tokenCharPositions
                     chunkTokens overlapTokens 0 0 [].

(** Every iteration moves the cursor by at least one token, so one unit of
    fuel per token is enough (see [buildChunks_loop_fuel]). *)
Definition buildChunks (text : string) (chunkTokens overlapTokens : Z)
    (tokenizer : string → list string) : Completion (list Chunk.t) :=
  buildChunks_fuel (length (tokenizer text)) text chunkTokens overlapTokens tokenizer.

(** The cursor step [Math.max(1, chunkTokens - overlapTokens)]. *)
Definition stride (chunkTokens overlapTokens : Z) : nat :=
  Z.to_nat (Z.max 1 (chunkTokens - overlapTokens)).

(** Every token is found verbatim by the forward search (the fallback branch
    of [locateTokens] is never taken). *)
Fixpoint tokensLocated (text : string) (tokens : list string) (searchIdx : nat)
  : bool :=
  match tokens with
  | [] => true
  | tok :: rest =>
    match JsString.indexOf text tok searchIdx with
    | None => false
    | Some found => tokensLocated text rest (found + String.length tok)
    end
  end.


(** ** JavaScript values *)

Inductive JsValue :=
| JUndefined
| JNull
| JBool (b : bool)
| JNum (bits : Z)
| JStr (s : string)
| JArr (items : list JsValue)
| JObj (props : gmap string JsValue).

Abbreviation JsObject := (gmap string JsValue).

Module JsNumber.

(** Numbers are binary64 bit patterns: sign, 11 exponent bits, 52
    fraction bits. *)
Definition isNaN (x : Z) : bool :=
  (Z.land (Z.shiftr x 52) 2047 =? 2047)%Z && negb (Z.land x (2 ^ 52 - 1) =? 0)%Z.

Definition isZero (x : Z) : bool := (Z.land x (2 ^ 63 - 1) =? 0)%Z.

(** SameValue on numbers: every NaN equals every NaN, [+0] differs from
    [-0]. *)
Definition sameValue (x y : Z) : bool := (isNaN x && isNaN y) || (x =? y)%Z.

(** The double that represents a small natural number exactly (array and
    string lengths are below [2^53]). *)
Definition ofNat (n : nat) : Z :=
  match n with
  | O => 0%Z
  | S _ =>
    let z := Z.of_nat n in
    let e := Z.log2 z in
    ((1023 + e) * 2 ^ 52 + (z * 2 ^ (52 - e) - 2 ^ 52))%Z
  end.

End JsNumber.

Definition ToBoolean (v : JsValue) : bool :=
  match v with
  | JUndefined | JNull => false
  | JBool b => b
  | JNum x => negb (JsNumber.isZero x || JsNumber.isNaN x)
  | JStr s => negb (String.eqb s EmptyString)
  | JArr _ | JObj _ => true
  end.

(** [v === null || v === undefined] *)
Definition nullish (v : JsValue) : bool :=
  match v with
  | JUndefined | JNull => true
  | _ => false
  end.

Definition isArray (v : JsValue) : bool :=
  match v with
  | JArr _ => true
  | _ => false
  end.

(** [typeof v === "object"] *)
Definition typeofObject (v : JsValue) : bool :=
  match v with
  | JNull | JArr _ | JObj _ => true
  | _ => false
  end.

(** [o[key]] on a plain object. *)
Definition getProp (o : JsObject) (key : string) : JsValue :=
  default JUndefined (o !! key).

(** [{...target, ...source}]: the later spread wins on a shared key. *)
Definition spread (target source : JsObject) : JsObject := source ∪ target.

(** The element of an array-like whose canonical index string is [key]. *)
Fixpoint indexProperty {A} (l : list A) (i : nat) (key : string) : option A :=
  match l with
  | [] => None
  | x :: l' =>
    if String.eqb (pretty i) key then Some x else indexProperty l' (S i) key
  end.

(** [Object.prototype.hasOwnProperty.call(v, key)] and, when it holds,
    [v[key]]: [Normal None] is "no own property"; [null] and [undefined]
    cannot be converted to an object.  Arrays and (boxed) strings own their
    index keys and [length]; numbers and booleans own nothing. *)
Definition ownProperty (v : JsValue) (key : string) : Completion (option JsValue) :=
  match v with
  | JUndefined | JNull => Throw TypeError
  | JObj props => Normal (props !! key)
  | JArr items =>
    Normal (if String.eqb key "length"
            then Some (JNum (JsNumber.ofNat (length items)))
            else indexProperty items 0 key)
  | JStr s =>
    Normal (if String.eqb key "length"
            then Some (JNum (JsNumber.ofNat (String.length s)))
            else indexProperty
                   ((λ c, JStr (String c EmptyString)) <$> list_ascii_of_string s)
                   0 key)
  | JBool _ | JNum _ => Normal None
  end.

#[global] Instance Completion_ret : MRet Completion := λ A a, Normal a.
#[global] Instance Completion_bind : MBind Completion := λ A B f m,
  match m with
  | Normal a => f a
  | Throw e => Throw e
  | OutOfFuel => OutOfFuel
  end.

(** [Array.prototype.sort(compare)]: the sort is stable, so its result is
    that of a stable insertion sort. *)
Module JsSort.

Fixpoint insert {A} (compare : A → A → Z) (x : A) (l : list A) : list A :=
  match l with
  | [] => [x]
  | y :: l' =>
    if (compare x y <=? 0)%Z then x :: y :: l' else y :: insert compare x l'
  end.

Definition sort {A} (compare : A → A → Z) (l : list A) : list A :=
  foldr (insert compare) [] l.

End JsSort.

(** ** index.ts: schema and result types *)

Inductive SchemaEnumValue :=
| EnumStr (s : string)
| EnumNum (bits : Z)
| EnumBool (b : bool)
| EnumNull.

Inductive SchemaType := TString | TNumber | TBoolean | TArray | TObject.

#[global] Instance SchemaType_eq_dec : EqDecision SchemaType.
Proof. solve_decision. Defined.

Inductive SchemaNode :=
| StringSchemaNode (description : option string)
                   (enum : option (list SchemaEnumValue))
| NumberSchemaNode (description : option string)
                   (enum : option (list SchemaEnumValue))
| BooleanSchemaNode (description : option string)
                    (enum : option (list SchemaEnumValue))
| ArraySchemaNode (description : option string)
                  (enum : option (list SchemaEnumValue))
                  (items : SchemaNode)
| ObjectSchemaNode (description : option string)
                   (enum : option (list SchemaEnumValue))
                   (properties : gmap string SchemaNode)
                   (required : option (list string)).

Module Schema.

Definition type (field : SchemaNode) : SchemaType :=
  match field with
  | StringSchemaNode _ _ => TString
  | NumberSchemaNode _ _ => TNumber
  | BooleanSchemaNode _ _ => TBoolean
  | ArraySchemaNode _ _ _ => TArray
  | ObjectSchemaNode _ _ _ _ => TObject
  end.

Definition enum (field : SchemaNode) : option (list SchemaEnumValue) :=
  match field with
  | StringSchemaNode _ e | NumberSchemaNode _ e | BooleanSchemaNode _ e
  | ArraySchemaNode _ e _ | ObjectSchemaNode _ e _ _ => e
  end.

Definition items (field : SchemaNode) : option SchemaNode :=
  match field with
  | ArraySchemaNode _ _ it => Some it
  | _ => None
  end.

End Schema.

(** [SchemaField = ObjectSchemaNode] *)
Record SchemaField := {
  description : option string;
  enum : option (list SchemaEnumValue);
  properties : gmap string SchemaNode;
  required : option (list string);
}.

Record ExtractOptions := {
  schema : option SchemaField;
  chunkTokens : option Z;
  overlapTokens : option Z;
  concurrency : option Z;
  tokenizer : option (string → list string);
  llmCallOptions : option JsObject;
  debug : option bool;
}.

Module ChunkResult.
Record t := mk {
  chunkId : nat;
  parsed : JsObject;
  raw : string;
}.
End ChunkResult.

Record Provenance := { sourceChunks : list nat }.

Record Metadata := {
  chunkCount : nat;
  perFieldProvenance : gmap string Provenance;
  rawChunkResults : list ChunkResult.t;
}.

Record ExtractResult := {
  json : JsObject;
  metadata : Metadata;
}.

(** What [await openai.chat.completions.create(args)] gives back: the call
    throws or rejects, or resolves to a response whose
    [resp?.choices?.[0]?.message?.content] is a string or is missing. *)
Inductive CallOutcome :=
| CallRejected
| CallResolved (content : option string).

(** ** index.ts: normalization of one parsed response *)

(** [Object.is(allowed, value)]: enumeration members are primitives, and a
    freshly parsed array or object is identical to none of them. *)
Definition Object_is (allowed : SchemaEnumValue) (value : JsValue) : bool :=
  match allowed, value with
  | EnumStr a, JStr s => String.eqb a s
  | EnumNum a, JNum x => JsNumber.sameValue a x
  | EnumBool a, JBool b => Bool.eqb a b
  | EnumNull, JNull => true
  | _, _ => false
  end.

(** [allowed.some((a) => Object.is(a, value))] *)
Definition matchesEnum (allowed : list SchemaEnumValue) (value : JsValue) : bool :=
  existsb (λ a, Object_is a value) allowed.

(** The body of [for (const [fieldId, field] of Object.entries(schema.properties))],
    from the enumeration test on: [value] is [hasField ? parsed[fieldId] : null]. *)
Definition normalizeValue (field : SchemaNode) (value : JsValue) : JsValue :=
  let value :=
    match Schema.enum field with
    | Some allowed =>
      if negb (nullish value) && negb (matchesEnum allowed value)
      then JNull else value
    | None => value
    end in
  let value :=
    match field, value with
    | ArraySchemaNode _ _ items, JArr entries =>
      match Schema.enum items with
      | Some itemEnum =>
        if (0 <? length itemEnum)%nat
           && negb (bool_decide (Schema.type items = TObject))
           && negb (bool_decide (Schema.type items = TArray))
        then JArr (List.filter (matchesEnum itemEnum) entries)
        else value
      | None => value
      end
    | _, _ => value
    end in
  match value with JUndefined => JNull | _ => value end.

Definition normalizeField (parsed : JsValue) (fieldId : string) (field : SchemaNode)
  : Completion JsValue :=
  own ← ownProperty parsed fieldId;
  Normal (normalizeValue field (match own with Some v => v | None => JNull end)).

Fixpoint normalizeEntries (parsed : JsValue) (entries : list (string * SchemaNode))
    (normalized : JsObject) : Completion JsObject :=
  match entries with
  | [] => Normal normalized
  | (fieldId, field) :: rest =>
    value ← normalizeField parsed fieldId field;
    normalizeEntries parsed rest (<[fieldId := value]> normalized)
  end.

(** [normalized] after the loop.  [map_to_list] enumerates each key once;
    the order of enumeration does not affect the resulting object. *)
Definition normalize (schema : SchemaField) (parsed : JsValue) : Completion JsObject :=
  normalizeEntries parsed (map_to_list (properties schema)) ∅.

(** ** index.ts: provenance *)

Definition sourceChunksOf (rawResults : list ChunkResult.t) (fieldId : string)
  : list nat :=
  ChunkResult.chunkId <$>
    filter (λ r, nullish (getProp (ChunkResult.parsed r) fieldId) = false) rawResults.

(** [for (const fieldId of Object.keys(schema.properties)) provenance[fieldId] = ...] *)
Definition buildProvenance (schema : SchemaField) (rawResults : list ChunkResult.t)
  : gmap string Provenance :=
  foldl (λ provenance fieldId,
           <[fieldId := {| sourceChunks := sourceChunksOf rawResults fieldId |}]>
             provenance)
        ∅ ((map_to_list (properties schema)).*1).

(** ** index.ts: the two prompts *)

(** An element of [compacted] in [buildFinalReductionPrompt]; [data] lists
    the properties of the object in the order in which they were set. *)
Module Compacted.
Record t := mk {
  id : nat;
  data : list (string * JsValue);
}.
End Compacted.

Module Prompt.

(** The double-quote and the line-feed characters. *)
Definition quote : string := String "034"%char EmptyString.
Definition lf : string := String "010"%char EmptyString.

(** [field.type] *)
Definition typeName (t : SchemaType) : string :=
  match t with
  | TString => "string"
  | TNumber => "number"
  | TBoolean => "boolean"
  | TArray => "array"
  | TObject => "object"
  end.

(** [field.description] *)
Definition description (field : SchemaNode) : option string :=
  match field with
  | StringSchemaNode d _ | NumberSchemaNode d _ | BooleanSchemaNode d _
  | ArraySchemaNode d _ _ | ObjectSchemaNode d _ _ _ => d
  end.

(** An enumeration member as a JavaScript value. *)
Definition enumValue (v : SchemaEnumValue) : JsValue :=
  match v with
  | EnumStr s => JStr s
  | EnumNum x => JNum x
  | EnumBool b => JBool b
  | EnumNull => JNull
  end.

(** The body of the [map] callback of [buildFinalReductionPrompt], on the
    entries of [cr.parsed]: values that are [null] or [undefined] are
    skipped, arrays are cut to their first twelve elements. *)
Definition compactEntries (entries : list (string * JsValue))
  : list (string * JsValue) :=
  omap (λ '(k, v),
          if nullish v then None
          else Some (k, match v with
                        | JArr items => JArr (JsArray.slice items 0 12)
                        | _ => v
                        end))
       entries.

Section stringify.

(** Host functions: [JSON.stringify(value)], [JSON.stringify(schema, null, 2)],
    [JSON.stringify(data, null, 2)] on an object given by its properties in
    order, and [Object.entries], which lists the own properties of an object
    in the order the host keeps them in. *)
Variable JSON_stringify : JsValue → string.
Variable JSON_stringify_schema : SchemaField → string.
Variable JSON_stringify_data : list (string * JsValue) → string.
Variable Object_entries : ∀ A : Type, gmap string A → list (string * A).

Definition formatEnumValues (values : list SchemaEnumValue) : string :=
  String.concat ", " ((λ value, JSON_stringify (enumValue value)) <$> values).

(** The array [hints] of [describeField] once both tests are done. *)
Definition hints (field : SchemaNode) : list string :=
  let hints :=
    match description field with
    | Some d => if String.eqb d EmptyString then [] else [d]
    | None => []
    end in
  match Schema.enum field with
  | Some (v :: values) =>
    hints ++ [("allowed values: " ++ formatEnumValues (v :: values))%string]
  | _ =>
    match Schema.items field with
    | Some items =>
      match Schema.enum items with
      | Some (v :: values) =>
        hints ++ [("allowed item values: " ++ formatEnumValues (v :: values))%string]
      | _ => hints
      end
    | None => hints
    end
  end.

Definition describeField (fieldId : string) (field : SchemaNode) : string :=
  let hint :=
    match hints field with
    | [] => EmptyString
    | h :: hs => (" Hint: " ++ String.concat "; " (h :: hs))%string
    end in
  ("- " ++ quote ++ fieldId ++ quote ++ " (" ++ typeName (Schema.type field) ++ ")"
   ++ hint)%string.

Definition buildPromptForChunk (chunk : Chunk.t) (schema : SchemaField) : string :=
  let fieldInstr :=
    String.concat lf
      ((λ '(fieldId, field), describeField fieldId field)
         <$> Object_entries _ (properties schema)) in
  ("You are a JSON extractor. Given the CHUNK of meeting/transcript text, extract the following fields and return EXACTLY valid JSON and nothing else."
   ++ lf ++ lf
   ++ "FIELDS:" ++ lf
   ++ fieldInstr ++ lf
   ++ lf
   ++ "For each field:" ++ lf
   ++ "- if absent, return null." ++ lf
   ++ "- string: return a short human-readable string." ++ lf
   ++ "- array: return a JSON array (possibly empty)." ++ lf
   ++ "- object: return a JSON object or null." ++ lf
   ++ "- number/boolean: return appropriate JSON types." ++ lf
   ++ lf
   ++ "Also include for each field an optional " ++ quote ++ "_confidence_<fieldId>"
   ++ quote ++ " numeric value between 0.0 and 1.0 representing the model's confidence (if you can estimate), otherwise you may omit it."
   ++ lf ++ lf
   ++ "CHUNK:" ++ lf
   ++ quote ++ quote ++ quote ++ Chunk.text chunk ++ quote ++ quote ++ quote ++ lf)%string.

(** [compacted] *)
Definition compact (chunkResults : list ChunkResult.t) : list Compacted.t :=
  (λ cr, Compacted.mk (ChunkResult.chunkId cr)
                      (compactEntries (Object_entries _ (ChunkResult.parsed cr))))
    <$> chunkResults.

(** What one round of [compacted.forEach] appends to the prompt. *)
Definition chunkSection (idx : nat) (cr : Compacted.t) : string :=
  (lf ++ "Chunk " ++ pretty (idx + 1)%nat ++ " (ID: " ++ pretty (Compacted.id cr) ++ "):"
   ++ lf ++ JSON_stringify_data (Compacted.data cr) ++ lf)%string.

Definition buildFinalReductionPrompt (chunkResults : list ChunkResult.t)
    (schema : SchemaField) : string :=
  let compacted := compact chunkResults in
  let schemaJson := JSON_stringify_schema schema in
  ("You are a JSON reducer. Given the SCHEMA and the per-chunk extraction results, produce the final JSON object that conforms to the SCHEMA. Return EXACTLY valid JSON and nothing else."
   ++ lf ++ lf
   ++ "SCHEMA (JSON Schema-like, target shape):" ++ lf ++ schemaJson ++ lf ++ lf
   ++ "CHUNK RESULTS (only non-null fields shown):" ++ lf
   ++ String.concat EmptyString (imap chunkSection compacted)
   ++ lf ++ "INSTRUCTIONS:" ++ lf
   ++ "- Produce a single JSON object that matches the SCHEMA." ++ lf
   ++ "- Merge information from all chunks." ++ lf
   ++ "- Arrays: deduplicate semantically; if items are objects, prefer merging by keys like id/text/task/action/name/title when present." ++ lf
   ++ "- Strings: produce concise summaries without duplicates." ++ lf
   ++ "- Objects: merge properties; prefer most recent or most specific info when conflicts arise." ++ lf
   ++ "- If a field is absent in all chunks, either omit it or set it to null." ++ lf
   ++ "- Output ONLY the final JSON object; no commentary.")%string.

End stringify.

End Prompt.

(** ** index.ts: [createIntext] *)

Inductive WorkerState :=
| Awaiting (chunk : Chunk.t) (pending : CallOutcome)
| Finished.

(** The variables shared by the workers of one [extract] call, and the
    requests passed to [openai.chat.completions.create] so far (oldest
    first). *)
Record Pool := {
  pointer : nat;
  workers : list WorkerState;
  rawResults : list ChunkResult.t;
  calls : list JsObject;
}.

(** The pool before any worker is created. *)
Definition pool0 : Pool :=
  {| pointer := 0; workers := []; rawResults := []; calls := [] |}.

Inductive PoolRun :=
| AllSettled (p : Pool)
| WorkerThrew (e : JsError) (p : Pool)
| PoolOutOfFuel.

(** The chunks of the workers that are suspended at their [await]. *)
Definition awaitingChunks (ws : list WorkerState) : list Chunk.t :=
  omap (λ st, match st with Awaiting chunk _ => Some chunk | Finished => None end) ws.

(** The workers that are suspended at their [await], with their index. *)
Fixpoint awaitingFrom (w : nat) (ws : list WorkerState)
  : list (nat * Chunk.t * CallOutcome) :=
  match ws with
  | [] => []
  | Awaiting chunk pending :: ws' => (w, chunk, pending) :: awaitingFrom (S w) ws'
  | Finished :: ws' => awaitingFrom (S w) ws'
  end.

Section createIntext.

(** Host and collaborators: [JSON.parse] ([None] is a thrown
    [SyntaxError]), the tokenizer of [token-estimator], and the two prompt
    builders, whose text is opaque to everything below. *)
Variable JSON_parse : string → option JsValue.
Variable defaultTokenizer : string → list string.
Variable buildPromptForChunk : Chunk.t → SchemaField → string.
Variable buildFinalReductionPrompt : list ChunkResult.t → SchemaField → string.

(** The parameters of [createIntext]; [openai] stands for
    [openai.chat.completions.create]. *)
Variable openai : JsObject → CallOutcome.
Variable clientParams : JsObject.
Variable defaultRequestParams : option JsObject.

(** The request object, built the same way for a chunk and for the final
    reduction. *)
Definition requestBodyFor (llmCallOptions : JsObject) (prompt : string) : JsObject :=
  let packageDefaults :=
    spread {[ "stream" := JBool false ]} (default ∅ defaultRequestParams) in
  let requestBody :=
    <[ "messages" :=
         JArr [JObj (<[ "role" := JStr "user" ]>
                       (<[ "content" := JStr prompt ]> ∅))] ]>
      (<[ "model" := getProp clientParams "model" ]>
         (spread (spread packageDefaults clientParams) llmCallOptions)) in
  if ToBoolean (getProp requestBody "response_format") then requestBody
  else <[ "response_format" := JObj {[ "type" := JStr "json_object" ]} ]> requestBody.

Section worker.

Variable schema : SchemaField.
Variable llmCallOptions : JsObject.
Variable chunks : list Chunk.t.

(** The top of the [while (true)] loop up to the [await]: claim an
    index, stop if it is past the end, otherwise send the request. *)
Definition workerEnter (p : Pool) : WorkerState * Pool :=
  let idx := pointer p in
  match chunks !! idx with
  | None =>
    (Finished,
     {| pointer := S idx; workers := workers p;
        rawResults := rawResults p; calls := calls p |})
  | Some chunk =>
    let prompt := buildPromptForChunk chunk schema in
    let requestBody := requestBodyFor llmCallOptions prompt in
    (Awaiting chunk (openai requestBody),
     {| pointer := S idx; workers := workers p;
        rawResults := rawResults p; calls := calls p ++ [requestBody] |})
  end.

(** The request a worker sends for [chunk]. *)
Definition chunkRequest (chunk : Chunk.t) : JsObject :=
  requestBodyFor llmCallOptions (buildPromptForChunk chunk schema).

(** From the settled call to the [ChunkResult]. *)
Definition workerSettle (chunk : Chunk.t) (pending : CallOutcome)
  : Completion ChunkResult.t :=
  let rawRespStr :=
    match pending with
    | CallResolved content => default EmptyString content
    | CallRejected => EmptyString
    end in
  let parsed :=
    if negb (String.eqb rawRespStr EmptyString)
    then match JSON_parse rawRespStr with
         | Some v => v
         | None => JObj ∅
         end
    else JObj ∅ in
  normalized ← normalize schema parsed;
  Normal (ChunkResult.mk (Chunk.id chunk) normalized rawRespStr).

(** What a worker makes of [chunk]: its request, settled. *)
Definition chunkResult (chunk : Chunk.t) : Completion ChunkResult.t :=
  workerSettle chunk (openai (chunkRequest chunk)).

(** The result a worker pushes for [chunk] when it does not throw. *)
Definition settled (chunk : Chunk.t) : ChunkResult.t :=
  match chunkResult chunk with
  | Normal cr => cr
  | _ => ChunkResult.mk (Chunk.id chunk) ∅ EmptyString
  end.

(** The invariant of the pool; [done] lists the chunks whose results have
    been pushed, in the order of the pushes.  The chunks claimed so far are
    those pushed and those awaited, a suspended worker waits for the call it
    sent, a worker stops only when the pointer is past the end, and the
    requests are sent in claim order. *)
Record PoolInv (p : Pool) (done : list Chunk.t) : Prop := {
  inv_results : rawResults p = settled <$> done;
  inv_normal : Forall (λ c, chunkResult c = Normal (settled c)) done;
  inv_claimed : done ++ awaitingChunks (workers p) ≡ₚ take (pointer p) chunks;
  inv_pending :
    Forall (λ st, match st with
                  | Awaiting c o => o = openai (chunkRequest c)
                  | Finished => True
                  end) (workers p);
  inv_finished : Finished ∈ workers p → (length chunks ≤ pointer p)%nat;
  inv_calls : calls p = chunkRequest <$> take (pointer p) chunks;
}.

(** Worker [w] wakes up: it pushes its result and goes round the loop. *)
Definition workerResume (w : nat) (chunk : Chunk.t) (pending : CallOutcome)
    (p : Pool) : Completion Pool :=
  cr ← workerSettle chunk pending;
  let pushed :=
    {| pointer := pointer p; workers := workers p;
       rawResults := rawResults p ++ [cr]; calls := calls p |} in
  let '(st, p') := workerEnter pushed in
  Normal {| pointer := pointer p'; workers := <[w := st]> (workers p');
            rawResults := rawResults p'; calls := calls p' |}.

(** [for (let i = 0; i < wcount; i++) workers.push(worker())]: each
    worker runs up to its first [await] as soon as it is created. *)
Fixpoint spawn (wcount : nat) (p : Pool) : Pool :=
  match wcount with
  | O => p
  | S wcount' =>
    let '(st, p') := workerEnter p in
    spawn wcount'
          {| pointer := pointer p'; workers := workers p' ++ [st];
             rawResults := rawResults p'; calls := calls p' |}
  end.

(** [await Promise.all(workers)].  At step [t] the pending call of the
    [sched t]-th suspended worker (modulo their number) settles; every
    completion order is the run of some [sched].  The first worker that
    throws rejects the whole. *)
Fixpoint runPool (fuel : nat) (sched : nat → nat) (t : nat) (p : Pool) : PoolRun :=
  match awaitingFrom 0 (workers p) with
  | [] => AllSettled p
  | a :: rest =>
    match fuel with
    | O => PoolOutOfFuel
    | S fuel' =>
      let '(w, chunk, pending) :=
        nth (sched t `mod` length (a :: rest)) (a :: rest) a in
      match workerResume w chunk pending p with
      | Normal p' => runPool fuel' sched (S t) p'
      | Throw e => WorkerThrew e p
      | OutOfFuel => PoolOutOfFuel
      end
    end
  end.

End worker.

(** The request of the final reduction. *)
Definition reductionRequest (schema : SchemaField) (llmCallOptions : JsObject)
    (rawResults : list ChunkResult.t) : JsObject :=
  requestBodyFor llmCallOptions (buildFinalReductionPrompt rawResults schema).

(** The final reduction: from the settled call to [finalJson]. *)
Definition reduce (pending : CallOutcome) : JsObject :=
  match pending with
  | CallRejected => ∅
  | CallResolved content =>
    let rawRespStr := default EmptyString content in
    let parsed :=
      if negb (String.eqb rawRespStr EmptyString)
      then match JSON_parse rawRespStr with
           | Some v => v
           | None => JNull
           end
      else JNull in
    if ToBoolean parsed && typeofObject parsed && negb (isArray parsed)
    then match parsed with JObj o => o | _ => ∅ end
    else ∅
  end.

(** [extract], an [async] function: [Throw] is a rejected promise.  The
    second component lists the requests sent before the promise settled. *)
Definition extract (sched : nat → nat) (text : string) (opts : ExtractOptions)
  : Completion ExtractResult * list JsObject :=
  let chunkTokens := default 1500%Z (chunkTokens opts) in
  let overlapTokens := default 300%Z (overlapTokens opts) in
  let concurrency := default 3%Z (concurrency opts) in
  let tokenizer := default defaultTokenizer (tokenizer opts) in
  let llmCallOptions := default ∅ (llmCallOptions opts) in
  match schema opts with
  | None => (Throw (Error "schema is required"), [])
  | Some schema =>
    match buildChunks text chunkTokens overlapTokens tokenizer with
    | Throw e => (Throw e, [])
    | OutOfFuel => (OutOfFuel, [])
    | Normal chunks =>
      let wcount := Z.max 1 (Z.min concurrency (Z.of_nat (length chunks))) in
      let started :=
        spawn schema llmCallOptions chunks (Z.to_nat wcount) pool0 in
      match runPool schema llmCallOptions chunks (length chunks) sched 0 started with
      | WorkerThrew e p => (Throw e, calls p)
      | PoolOutOfFuel => (OutOfFuel, [])
      | AllSettled p =>
        let rawResults :=
          JsSort.sort (λ a b, (Z.of_nat (ChunkResult.chunkId a)
                               - Z.of_nat (ChunkResult.chunkId b))%Z)
                      (rawResults p) in
        let reductionPrompt := buildFinalReductionPrompt rawResults schema in
        let requestBody := requestBodyFor llmCallOptions reductionPrompt in
        let finalJson := reduce (openai requestBody) in
        let provenance := buildProvenance schema rawResults in
        (Normal {| json := finalJson;
                   metadata := {| chunkCount := length chunks;
                                  perFieldProvenance := provenance;
                                  rawChunkResults := rawResults |} |},
         calls p ++ [requestBody])
      end
    end
  end.

End createIntext.

(** [hasField ? parsed[fieldId] : null] for a value that has properties. *)
Definition fieldValue (parsed : JsValue) (fieldId : string) : JsValue :=
  match ownProperty parsed fieldId with
  | Normal (Some v) => v
  | _ => JNull
  end.

(** The window produced when the cursor is at token [pos] and the next id
    is [id]: one iteration of the loop of [buildChunks]. *)
Definition windowAt (text : string) (tokens : list string)
    (tokenCharPositions : list TokenPos) (chunkTokens : Z) (pos id : nat)
  : option Chunk.t :=
  let endToken := Z.min (Z.of_nat pos + chunkTokens) (Z.of_nat (length tokens)) in
  ps ← tokenCharPositions !! pos;
  pe ← JsArray.get tokenCharPositions (endToken - 1);
  Some (Chunk.mk id (JsString.slice text (start ps) (end_ pe)) (start ps) (end_ pe)
                 (JsArray.slice tokens (Z.of_nat pos) endToken)).

(** The windows of an [extract] call: [buildChunks] under the defaults of
    the options. *)
Definition chunksOf (defaultTokenizer : string → list string) (text : string)
    (opts : ExtractOptions) : Completion (list Chunk.t) :=
  buildChunks text (default 1500%Z (chunkTokens opts))
              (default 300%Z (overlapTokens opts))
              (default defaultTokenizer (tokenizer opts)).

(** ** Vocabulary of the properties *)



(** The value of a request parameter under the three layers alone: per-call
    overrides, then the instance's [clientParams], then the library
    defaults ([stream: false] under [defaultRequestParams]). *)
Definition layered (clientParams : JsObject) (defaultRequestParams : option JsObject)
    (llmCallOptions : JsObject) (key : string) : option JsValue :=
  match llmCallOptions !! key with
  | Some v => Some v
  | None =>
    match clientParams !! key with
    | Some v => Some v
    | None =>
      match default ∅ defaultRequestParams !! key with
      | Some v => Some v
      | None => ({[ "stream" := JBool false ]} : JsObject) !! key
      end
    end
  end.

(** A completion call that resolves to non-empty text which parses to
    [null]: neither a failed call nor an unparsable response. *)
Definition answersNull (JSON_parse : string → option JsValue) (outcome : CallOutcome)
  : Prop :=
  ∃ content v, outcome = CallResolved (Some content)
               ∧ content ≠ EmptyString
               ∧ JSON_parse content = Some v
               ∧ nullish v = true.

(** The calls that have been sent and whose worker is still suspended. *)
Definition inFlight (p : Pool) : nat := length (awaitingFrom 0 (workers p)).

Section poolSteps.

Variable JSON_parse : string → option JsValue.
Variable buildPromptForChunk : Chunk.t → SchemaField → string.
Variable openai : JsObject → CallOutcome.
Variable clientParams : JsObject.
Variable defaultRequestParams : option JsObject.
Variable schema : SchemaField.
Variable llmCallOptions : JsObject.
Variable chunks : list Chunk.t.

(** One step of [await Promise.all(workers)]: the pending call of some
    suspended worker settles and the worker goes round its loop. *)
Inductive poolStep : Pool → Pool → Prop :=
| poolStep_resume w chunk pending p p' :
  (w, chunk, pending) ∈ awaitingFrom 0 (workers p) →
  workerResume JSON_parse buildPromptForChunk openai clientParams
               defaultRequestParams schema llmCallOptions chunks
               w chunk pending p = Normal p' →
  poolStep p p'.

(** The states that a pool of [wcount] workers goes through, in any
    completion order. *)
Definition poolReaches (wcount : nat) (p : Pool) : Prop :=
  rtc poolStep
      (spawn buildPromptForChunk openai clientParams defaultRequestParams
             schema llmCallOptions chunks wcount pool0)
      p.

End poolSteps.

(** ** The scenario of test/extract.test.ts *)

Module Test.

(** The double-quote character, for JSON text. *)
Definition q : string := String "034"%char EmptyString.

Definition quoted (s : string) : string := (q ++ s ++ q)%string.

(** A word tokenizer ([text.split(/\s+/)] without empty words) standing in
    for the tokenizer of [token-estimator]. *)
Definition isSpace (c : ascii) : bool :=
  Ascii.eqb c " "%char || Ascii.eqb c "010"%char.

Fixpoint splitWords (s word : string) : list string :=
  match s with
  | EmptyString => if String.eqb word EmptyString then [] else [word]
  | String c s' =>
    if isSpace c
    then (if String.eqb word EmptyString then splitWords s' EmptyString
          else word :: splitWords s' EmptyString)
    else splitWords s' (word ++ String c EmptyString)%string
  end.

Definition wordTokenizer (text : string) : list string := splitWords text EmptyString.

Definition text : string :=
  ("This is CHUNK1 with some details." ++ String "010"%char EmptyString
   ++ "And here is CHUNK2 with other details.")%string.

Definition issueSchema : SchemaField :=
  {| description := None; enum := None; required := None;
     properties :=
       <[ "issue" := StringSchemaNode (Some "one-sentence summary") None ]>
       (<[ "next_moves" :=
             ArraySchemaNode (Some "list of actions") None
               (ObjectSchemaNode None None
                  {[ "text" := StringSchemaNode None None ]} None) ]>
       (<[ "status" :=
             StringSchemaNode (Some "overall outcome")
                              (Some [EnumStr "open"; EnumStr "closed"]) ]> ∅)) |}.

Definition opts : ExtractOptions :=
  {| schema := Some issueSchema; chunkTokens := Some 5%Z;
     overlapTokens := Some 0%Z; concurrency := Some 2%Z;
     tokenizer := Some wordTokenizer; llmCallOptions := None;
     debug := Some false |}.

Definition clientParams : JsObject :=
  <[ "model" := JStr "mock-model" ]> (<[ "temperature" := JNum 0 ]> ∅).

Definition defaultRequestParams : option JsObject :=
  Some {[ "stream" := JBool false ]}.

(** Stand-ins for the two prompt builders: the window prompt embeds the
    text of the window, the reduction prompt starts with the phrase the mock
    client looks for. *)
Definition buildPromptForChunk (chunk : Chunk.t) (_ : SchemaField) : string :=
  ("You are a JSON extractor. CHUNK: " ++ Chunk.text chunk)%string.

Definition buildFinalReductionPrompt (_ : list ChunkResult.t) (_ : SchemaField)
  : string :=
  "You are a JSON reducer. Given the SCHEMA and the per-chunk extraction results".

Definition moves (items : list string) : JsValue :=
  JArr ((λ t, JObj {[ "text" := JStr t ]}) <$> items).

Definition answer (issue : JsValue) (next_moves : list string) (status : JsValue)
  : JsValue :=
  JObj (<[ "issue" := issue ]>
        (<[ "next_moves" := moves next_moves ]>
        (<[ "status" := status ]> ∅))).

(** The texts that the mock client returns ([JSON.stringify] of its
    answers) and the values they parse to. *)
Definition movesText (items : list string) : string :=
  ("[" ++ String.concat ","
            ((λ t, "{" ++ quoted "text" ++ ":" ++ quoted t ++ "}") <$> items)
   ++ "]")%string.

Definition answerText (issue : string) (next_moves : list string) (status : string)
  : string :=
  ("{" ++ quoted "issue" ++ ":" ++ issue ++ ","
   ++ quoted "next_moves" ++ ":" ++ movesText next_moves ++ ","
   ++ quoted "status" ++ ":" ++ status ++ "}")%string.

Definition finalText : string :=
  answerText (quoted "Combined issue from chunks") ["Do X"; "Do Y"] (quoted "closed").
Definition chunk1Text : string :=
  answerText (quoted "Issue A") ["Do X"] (quoted "unknown").
Definition chunk2Text : string :=
  answerText (quoted "Issue B") ["Do Y"] (quoted "closed").
Definition otherText : string := answerText "null" [] "null".

(** [JSON.parse] on the texts above; any other text of the scenario is not
    JSON. *)
Definition JSON_parse (s : string) : option JsValue :=
  if String.eqb s finalText
  then Some (answer (JStr "Combined issue from chunks") ["Do X"; "Do Y"] (JStr "closed"))
  else if String.eqb s chunk1Text
  then Some (answer (JStr "Issue A") ["Do X"] (JStr "unknown"))
  else if String.eqb s chunk2Text
  then Some (answer (JStr "Issue B") ["Do Y"] (JStr "closed"))
  else if String.eqb s otherText
  then Some (answer JNull [] JNull)
  else if String.eqb s "null"
  then Some JNull
  else None.

Definition includes (s needle : string) : bool :=
  bool_decide (is_Some (JsString.indexOf s needle 0)).

(** [args?.messages?.[0]?.content ?? ""] *)
Definition promptOf (args : JsObject) : string :=
  match args !! "messages" with
  | Some (JArr (JObj message :: _)) =>
    match message !! "content" with
    | Some (JStr content) => content
    | _ => EmptyString
    end
  | _ => EmptyString
  end.

(** test/mock-openai.ts *)
Definition mockOpenAI (args : JsObject) : CallOutcome :=
  let content := promptOf args in
  if String.prefix "You are a JSON reducer" content
  then CallResolved (Some finalText)
  else if includes content "CHUNK1" then CallResolved (Some chunk1Text)
  else if includes content "CHUNK2" then CallResolved (Some chunk2Text)
  else CallResolved (Some otherText).



(** A client that answers the JSON text [null] for the windows that mention
    neither CHUNK1 nor CHUNK2. *)
Definition nullOpenAI (args : JsObject) : CallOutcome :=
  let content := promptOf args in
  if String.prefix "You are a JSON reducer" content
  then CallResolved (Some finalText)
  else if includes content "CHUNK1" then CallResolved (Some chunk1Text)
  else if includes content "CHUNK2" then CallResolved (Some chunk2Text)
  else CallResolved (Some "null").

(** Completion orders: first suspended worker first, or last first. *)
Definition inOrder (_ : nat) : nat := 0.
Definition reversed (_ : nat) : nat := 1.

Definition run (openai : JsObject → CallOutcome) (sched : nat → nat)
  : Completion ExtractResult * list JsObject :=
  extract JSON_parse wordTokenizer buildPromptForChunk buildFinalReductionPrompt
          openai clientParams defaultRequestParams sched text opts.

(** What a run returned ([extract] returns in every run of the scenario). *)
Definition resultOf (r : Completion ExtractResult * list JsObject) : ExtractResult :=
  match r.1 with
  | Normal res => res
  | _ => {| json := ∅;
            metadata := {| chunkCount := 0; perFieldProvenance := ∅;
                           rawChunkResults := [] |} |}
  end.

Definition chunks : list Chunk.t :=
  match chunksOf wordTokenizer text opts with
  | Normal cs => cs
  | _ => []
  end.

(** A schema with enumerations on array fields: [tags] declares an
    enumeration on the field and on its items, [kinds] an empty enumeration
    on its items, [labels] a non-empty one on its items only. *)
Definition tagSchema : SchemaField :=
  {| description := None; enum := None; required := None;
     properties :=
       <[ "tags" :=
            ArraySchemaNode None (Some [EnumStr "a"])
              (StringSchemaNode None (Some [EnumStr "a"; EnumStr "b"])) ]>
       (<[ "kinds" :=
            ArraySchemaNode None None (StringSchemaNode None (Some [])) ]>
       (<[ "labels" :=
            ArraySchemaNode None None
              (StringSchemaNode None (Some [EnumStr "a"; EnumStr "b"])) ]> ∅)) |}.

Definition tagResponse : JsValue :=
  JObj (<[ "tags" := JArr [JStr "a"; JStr "c"] ]>
        (<[ "kinds" := JArr [JStr "x"] ]>
        (<[ "labels" := JArr [JStr "a"; JStr "c"; JStr "b"] ]>
        (<[ "extra" := JBool true ]> ∅)))).

(** Options whose per-call overrides name another model. *)
Definition overrideOpts : ExtractOptions :=
  {| schema := Some issueSchema; chunkTokens := Some 50%Z;
     overlapTokens := Some 0%Z; concurrency := Some 2%Z;
     tokenizer := Some wordTokenizer;
     llmCallOptions :=
       Some (<[ "model" := JStr "override-model" ]>
             (<[ "temperature" := JNum 4607182418800017408 ]> ∅));
     debug := None |}.

End Test.

(** ** Sample inputs *)

Module Sample.

Definition text : string := "a b c d e".

(** The windows of [text] under the word tokenizer. *)
Definition chunks (chunkTokens overlapTokens : Z) : list Chunk.t :=
  match buildChunks text chunkTokens overlapTokens Test.wordTokenizer with
  | Normal cs => cs
  | _ => []
  end.

Definition window (chunkTokens overlapTokens : Z) (k : nat) : Chunk.t :=
  default (Chunk.mk 0 EmptyString 0 0 []) (chunks chunkTokens overlapTokens !! k).

(** [normalized] for a parsed response. *)
Definition normalized (schema : SchemaField) (parsed : JsValue) : JsObject :=
  match normalize schema parsed with
  | Normal n => n
  | _ => ∅
  end.

(** A response whose [issue] is the number 5 and whose [status] is a member
    of the enumeration. *)
Definition numericIssue : JsValue :=
  JObj (<[ "issue" := JNum 4617315517961601024 ]>
        (<[ "status" := JStr "open" ]> ∅)).

(** The options of the test with another window size. *)
Definition optsWith (chunkTokens : Z) : ExtractOptions :=
  {| schema := Some Test.issueSchema; chunkTokens := Some chunkTokens;
     overlapTokens := Some 0%Z; concurrency := Some 2%Z;
     tokenizer := Some Test.wordTokenizer; llmCallOptions := None;
     debug := Some false |}.

(** A window result with a [null] field and an array of fourteen items. *)
Definition longResult : ChunkResult.t :=
  ChunkResult.mk 3
    (<[ "issue" := JNull ]>
     (<[ "next_moves" := JArr (replicate 14 (JStr "x")) ]>
     (<[ "status" := JStr "open" ]> ∅)))
    EmptyString.

(** Stand-ins for the host functions of the prompts. *)
Definition Object_entries (A : Type) (m : gmap string A) : list (string * A) :=
  map_to_list m.
Definition JSON_stringify (_ : JsValue) : string := "null".

(** The window with the marker of the mock client. *)
Definition markedChunk : Chunk.t :=
  Chunk.mk 0 "This is CHUNK1 with some" 0 24 ["This"; "is"; "CHUNK1"; "with"; "some"].

End Sample.

(** * Properties *)

#[local] Open Scope nat_scope.

(** * Chunking *)

Lemma prefix_length tok s :
  String.prefix tok s = true → String.length tok ≤ String.length s.
Proof.
  revert s. induction tok as [|a tok IH]; intros [|b s]; simpl; try lia; try done.
  destruct (Ascii.ascii_dec a b); [|done]. intros H%IH. lia.
Qed.

Lemma drop_length n s :
  String.length (JsString.drop n s) = String.length s - n.
Proof.
  revert s. induction n as [|n IH]; intros [|b s]; simpl; try lia. apply IH.
Qed.

Lemma indexOf_aux_bounds tok s k m :
  JsString.indexOf_aux tok s k = Some m →
  k ≤ m ∧ m + String.length tok ≤ k + String.length s.
Proof.
  revert k. induction s as [|b s IH]; intros k; cbn [JsString.indexOf_aux].
  - destruct (String.prefix tok EmptyString) eqn:E; [|done].
    apply prefix_length in E. cbn in E. intros [= <-]. lia.
  - destruct (String.prefix tok (String b s)) eqn:E.
    + apply prefix_length in E. cbn in E. intros [= <-]. cbn. lia.
    + intros H%IH. cbn. lia.
Qed.

Lemma indexOf_bounds text tok position m :
  JsString.indexOf text tok position = Some m →
  position `min` String.length text ≤ m ∧ m + String.length tok ≤ String.length text.
Proof.
  unfold JsString.indexOf. intros H%indexOf_aux_bounds.
  rewrite drop_length in H. lia.
Qed.

Lemma locateTokens_length text tokens searchIdx :
  length (locateTokens text tokens searchIdx) = length tokens.
Proof.
  revert searchIdx. induction tokens as [|tok rest IH]; intros k; simpl; [done|].
  destruct (JsString.indexOf text tok k); simpl; by rewrite IH.
Qed.

Lemma locateTokens_end_bound text tokens searchIdx :
  Forall (λ p, end_ p ≤ String.length text) (locateTokens text tokens searchIdx).
Proof.
  revert searchIdx. induction tokens as [|tok rest IH]; intros k; simpl; [constructor|].
  destruct (JsString.indexOf text tok k) as [m|] eqn:E; constructor; simpl; auto.
  - apply indexOf_bounds in E. lia.
  - lia.
Qed.

Lemma locateTokens_start_bound text tokens searchIdx :
  tokensLocated text tokens searchIdx = true →
  Forall (λ p, start p ≤ end_ p ∧ end_ p ≤ String.length text)
         (locateTokens text tokens searchIdx).
Proof.
  revert searchIdx. induction tokens as [|tok rest IH]; intros k; simpl; [constructor|].
  destruct (JsString.indexOf text tok k) as [m|] eqn:E; [|done].
  intros H. constructor; simpl; auto.
  apply indexOf_bounds in E. lia.
Qed.

Section buildChunks_loop.

Variables (text : string) (tokens : list string) (tcp : list TokenPos).
Variables (chunkTokens overlapTokens : Z).
Hypothesis tcp_length : length tcp = length tokens.

Let s := stride chunkTokens overlapTokens.

Lemma stride_pos : 1 ≤ stride chunkTokens overlapTokens.
Proof. unfold stride. lia. Qed.

(** With or without a usable window size, the loop stops within one
    iteration per remaining token. *)
Lemma buildChunks_loop_fuel fuel i chunkId chunks :
  length tokens - i ≤ fuel →
  buildChunks_loop fuel text tokens tcp chunkTokens overlapTokens i chunkId chunks
  ≠ OutOfFuel.
Proof.
  revert i chunkId chunks.
  induction fuel as [|fuel IH]; intros i chunkId chunks Hf; cbn [buildChunks_loop].
  - case_decide; [lia|done].
  - case_decide; [|done].
    destruct (tcp !! i); [|done].
    destruct (JsArray.get tcp _); [|done].
    apply IH. pose proof stride_pos. unfold stride in *. lia.
Qed.

Lemma windowAt_is_Some pos id :
  (1 ≤ chunkTokens)%Z → pos < length tokens →
  is_Some (windowAt text tokens tcp chunkTokens pos id).
Proof.
  intros HcT Hpos. unfold windowAt.
  destruct (lookup_lt_is_Some_2 tcp pos) as [ps ->]; [lia|].
  unfold JsArray.get.
  destruct (Z.ltb_spec (Z.min (Z.of_nat pos + chunkTokens) (Z.of_nat (length tokens)) - 1) 0);
    [lia|].
  destruct (lookup_lt_is_Some_2 tcp
              (Z.to_nat (Z.min (Z.of_nat pos + chunkTokens) (Z.of_nat (length tokens)) - 1)))
    as [pe ->]; [lia|].
  simpl. eauto.
Qed.

Lemma buildChunks_loop_step fuel i chunkId chunks c :
  i < length tokens →
  windowAt text tokens tcp chunkTokens i chunkId = Some c →
  buildChunks_loop (S fuel) text tokens tcp chunkTokens overlapTokens i chunkId chunks
  = buildChunks_loop fuel text tokens tcp chunkTokens overlapTokens
                     (i + s) (S chunkId) (chunks ++ [c]).
Proof.
  intros Hi Hw. cbn [buildChunks_loop]. case_decide; [|lia].
  unfold windowAt in Hw.
  destruct (tcp !! i) as [ps|]; [|done]. simpl in Hw.
  destruct (JsArray.get tcp _) as [pe|]; [|done]. simpl in Hw.
  by injection Hw as <-.
Qed.

(** The windows appended by the loop are exactly the windows at the cursor
    positions [i], [i + s], [i + 2 s], ... below the token count, with
    consecutive ids. *)
Lemma buildChunks_loop_spec fuel i chunkId chunks :
  (1 ≤ chunkTokens)%Z →
  length tokens - i ≤ fuel →
  ∃ new,
    buildChunks_loop fuel text tokens tcp chunkTokens overlapTokens i chunkId chunks
    = Normal (chunks ++ new)
    ∧ (∀ j c, new !! j = Some c →
              i + j * s < length tokens
              ∧ windowAt text tokens tcp chunkTokens (i + j * s) (chunkId + j) = Some c)
    ∧ (∀ j, i + j * s < length tokens → j < length new).
Proof.
  intros HcT. revert i chunkId chunks.
  induction fuel as [|fuel IH]; intros i chunkId chunks Hf.
  - exists []. cbn [buildChunks_loop]. case_decide; [lia|].
    rewrite app_nil_r. split_and!; [done|done|]. intros j Hj. lia.
  - destruct (decide (i < length tokens)) as [Hi|Hi].
    + destruct (windowAt_is_Some i chunkId HcT Hi) as [c Hc].
      rewrite (buildChunks_loop_step _ _ _ _ c Hi Hc).
      pose proof stride_pos as Hs. fold s in Hs.
      destruct (IH (i + s) (S chunkId) (chunks ++ [c])) as (new & Hrun & Hwin & Hcnt); [lia|].
      exists (c :: new). split_and!.
      * rewrite Hrun. by rewrite <-app_assoc.
      * intros [|j] c' Hj; simpl in Hj.
        -- injection Hj as <-.
           replace (i + 0 * s) with i by lia.
           replace (chunkId + 0) with chunkId by lia. done.
        -- destruct (Hwin j c' Hj) as [Hlt Hw].
           replace (i + S j * s) with (i + s + j * s) by lia.
           replace (chunkId + S j) with (S chunkId + j) by lia. done.
      * intros [|j] Hj; simpl; [lia|].
        apply ->Nat.succ_lt_mono. apply Hcnt. lia.
    + exists []. cbn [buildChunks_loop]. case_decide; [lia|].
      rewrite app_nil_r. split_and!; [done|done|]. intros j Hj. lia.
Qed.

End buildChunks_loop.

Lemma windowAt_inv text tokens tcp chunkTokens pos id c :
  windowAt text tokens tcp chunkTokens pos id = Some c →
  Chunk.id c = id
  ∧ Chunk.tokens c
    = JsArray.slice tokens (Z.of_nat pos)
        (Z.min (Z.of_nat pos + chunkTokens) (Z.of_nat (length tokens)))
  ∧ (∃ ps, ps ∈ tcp ∧ Chunk.startChar c = start ps)
  ∧ (∃ pe, pe ∈ tcp ∧ Chunk.endChar c = end_ pe).
Proof.
  unfold windowAt, JsArray.get. intros H.
  destruct (tcp !! pos) as [ps|] eqn:Eps; [|done]. simpl in H.
  destruct (_ <? 0)%Z; [done|].
  destruct (tcp !! Z.to_nat _) as [pe|] eqn:Epe; [|done]. simpl in H.
  injection H as <-. simpl. split_and!; [done|done|..].
  - exists ps. split; [|done]. by eapply list_elem_of_lookup_2.
  - exists pe. split; [|done]. by eapply list_elem_of_lookup_2.
Qed.

(** The result of [buildChunks] whenever the window size is usable. *)
Lemma buildChunks_spec text chunkTokens overlapTokens tokenizer :
  tokenizer text = [] ∨ (1 ≤ chunkTokens)%Z →
  let tokens := tokenizer text in
  let s := stride chunkTokens overlapTokens in
  ∃ chunks,
    (∀ fuel, length tokens ≤ fuel →
             buildChunks_fuel fuel text chunkTokens overlapTokens tokenizer
             = Normal chunks)
    ∧ (∀ k c, chunks !! k = Some c →
              k * s < length tokens
              ∧ windowAt text tokens (locateTokens text tokens 0) chunkTokens (k * s) k
                = Some c)
    ∧ (∀ k, k * s < length tokens → k < length chunks).
Proof.
  intros Hdom tokens s. unfold buildChunks_fuel. fold tokens.
  destruct (decide (length tokens = 0)) as [Hz|Hnz].
  - exists []. split_and!; [done|done|]. intros k Hk. lia.
  - destruct Hdom as [Hnil|HcT].
    { exfalso. apply Hnz. unfold tokens. by rewrite Hnil. }
    pose proof (locateTokens_length text tokens 0) as Hlen.
    destruct (buildChunks_loop_spec text tokens (locateTokens text tokens 0)
                chunkTokens overlapTokens Hlen (length tokens) 0 0 [] HcT)
      as (new & Hrun & Hwin & Hcnt); [lia|].
    exists new. split_and!.
    + intros fuel Hfuel.
      destruct (buildChunks_loop_spec text tokens (locateTokens text tokens 0)
                  chunkTokens overlapTokens Hlen fuel 0 0 [] HcT)
        as (new' & Hrun' & Hwin' & Hcnt'); [lia|].
      rewrite Hrun'. f_equal. simpl.
      apply list_eq. intros k.
      destruct (new !! k) as [c|] eqn:Ek, (new' !! k) as [c'|] eqn:Ek'; try done.
      * destruct (Hwin k c Ek) as [_ H1]. destruct (Hwin' k c' Ek') as [_ H2]. congruence.
      * destruct (Hwin k c Ek) as [H1 _]. apply Hcnt' in H1.
        apply lookup_ge_None in Ek'. lia.
      * destruct (Hwin' k c' Ek') as [H1 _]. apply Hcnt in H1.
        apply lookup_ge_None in Ek. lia.
    + intros k c Hk. by destruct (Hwin k c Hk).
    + intros k Hk. apply Hcnt. lia.
Qed.

(** C6, amended: for a window size of at least one token (or a text without
    tokens), whatever the overlap, [buildChunks] returns with any fuel of at
    least one unit per token; window [k] has id [k] and holds the tokens
    from cursor position [k * max(1, chunkTokens - overlapTokens)], and there
    is one window for each such position below the token count. *)
Theorem buildChunks_ids_and_stride text chunkTokens overlapTokens tokenizer :
  tokenizer text = [] ∨ (1 ≤ chunkTokens)%Z →
  let tokens := tokenizer text in
  let s := Z.to_nat (Z.max 1 (chunkTokens - overlapTokens)) in
  ∃ chunks,
    buildChunks text chunkTokens overlapTokens tokenizer = Normal chunks
    ∧ (∀ fuel, length tokens ≤ fuel →
               buildChunks_fuel fuel text chunkTokens overlapTokens tokenizer
               = Normal chunks)
    ∧ 1 ≤ s
    ∧ (∀ k, k < length chunks ↔ k * s < length tokens)
    ∧ (∀ k c, chunks !! k = Some c →
              Chunk.id c = k
              ∧ Chunk.tokens c
                = JsArray.slice tokens (Z.of_nat (k * s))
                    (Z.min (Z.of_nat (k * s) + chunkTokens) (Z.of_nat (length tokens)))).
Proof.
  intros Hdom tokens s.
  destruct (buildChunks_spec text chunkTokens overlapTokens tokenizer Hdom)
    as (chunks & Hrun & Hwin & Hcnt).
  exists chunks. split_and!.
  - apply Hrun. done.
  - done.
  - unfold s. lia.
  - intros k. split.
    + intros Hk. destruct (lookup_lt_is_Some_2 chunks k Hk) as [c Hc].
      by destruct (Hwin k c Hc).
    + apply Hcnt.
  - intros k c Hc. destruct (Hwin k c Hc) as [_ Hw].
    apply windowAt_inv in Hw as (Hid & Htok & _). done.
Qed.

(** An overlap larger than the window: the cursor still moves by one
    token. *)
Lemma buildChunks_ids_and_stride_witness :
  ∃ chunks,
    buildChunks "a b c" 2 5 (λ _, ["a"; "b"; "c"]) = Normal chunks
    ∧ (∀ fuel, 3 ≤ fuel →
               buildChunks_fuel fuel "a b c" 2 5 (λ _, ["a"; "b"; "c"]) = Normal chunks)
    ∧ 1 ≤ 1
    ∧ (∀ k, k < length chunks ↔ k * 1 < 3)
    ∧ (∀ k c, chunks !! k = Some c →
              Chunk.id c = k
              ∧ Chunk.tokens c
                = JsArray.slice ["a"; "b"; "c"] (Z.of_nat (k * 1))
                    (Z.min (Z.of_nat (k * 1) + 2) 3)).
Proof.
  apply (buildChunks_ids_and_stride "a b c" 2 5 (λ _, ["a"; "b"; "c"])).
  right. lia.
Defined.

(** C6 as stated fails for a window size of zero: the first iteration reads
    [tokenCharPositions[-1].end] and throws. *)
Lemma buildChunks_zero_window_throws :
  buildChunks "a" 0 0 (λ t, [t]) = Throw TypeError
  ∧ ¬ ∃ chunks, buildChunks "a" 0 0 (λ t, [t]) = Normal chunks.
Proof. split; [reflexivity|]. intros [chunks H]. discriminate H. Qed.

(** C7, amended: when the window size is at least one token (or there are
    no tokens), [buildChunks] returns; it returns no window exactly when the
    tokenizer yields no token; every window ends within the text, and starts
    within it as well when every token is found verbatim by the forward
    search. *)
Theorem buildChunks_nonempty_in_bounds text chunkTokens overlapTokens tokenizer :
  tokenizer text = [] ∨ (1 ≤ chunkTokens)%Z →
  ∃ chunks,
    buildChunks text chunkTokens overlapTokens tokenizer = Normal chunks
    ∧ (tokenizer text = [] → chunks = [])
    ∧ (tokenizer text ≠ [] → 1 ≤ length chunks)
    ∧ (∀ c, c ∈ chunks →
            Chunk.endChar c ≤ String.length text
            ∧ (tokensLocated text (tokenizer text) 0 = true →
               Chunk.startChar c ≤ String.length text)).
Proof.
  intros Hdom.
  destruct (buildChunks_spec text chunkTokens overlapTokens tokenizer Hdom)
    as (chunks & Hrun & Hwin & Hcnt).
  exists chunks. split_and!.
  - apply Hrun. done.
  - intros Hnil. destruct chunks as [|c chunks]; [done|].
    destruct (Hwin 0 c eq_refl) as [Hlt _]. rewrite Hnil in Hlt. simpl in Hlt. lia.
  - intros Hne. apply (Hcnt 0). destruct (tokenizer text); [done|]. simpl. lia.
  - intros c [k Hc]%list_elem_of_lookup_1.
    destruct (Hwin k c Hc) as [_ Hw].
    apply windowAt_inv in Hw as (_ & _ & (ps & Hps & ->) & (pe & Hpe & ->)).
    split.
    + pose proof (locateTokens_end_bound text (tokenizer text) 0) as Hall.
      rewrite Forall_forall in Hall. by apply Hall.
    + intros Hloc. apply locateTokens_start_bound in Hloc.
      rewrite Forall_forall in Hloc. destruct (Hloc ps Hps). lia.
Qed.

Lemma buildChunks_nonempty_in_bounds_witness :
  ∃ chunks,
    buildChunks "ab cd" 1 0 (λ _, ["ab"; "cd"]) = Normal chunks
    ∧ ((λ _ : string, ["ab"; "cd"]) "ab cd" = [] → chunks = [])
    ∧ ((λ _ : string, ["ab"; "cd"]) "ab cd" ≠ [] → 1 ≤ length chunks)
    ∧ (∀ c, c ∈ chunks →
            Chunk.endChar c ≤ String.length "ab cd"
            ∧ (tokensLocated "ab cd" ((λ _ : string, ["ab"; "cd"]) "ab cd") 0 = true →
               Chunk.startChar c ≤ String.length "ab cd")).
Proof.
  apply (buildChunks_nonempty_in_bounds "ab cd" 1 0 (λ _, ["ab"; "cd"])).
  right. lia.
Defined.

(** C7 as stated fails for a tokenizer whose tokens are not found in the
    text: the fallback clamps the end offset only, and the second window
    starts at offset 3 of a text of length 2. *)
Lemma buildChunks_start_past_text :
  ∃ c0 c1,
    buildChunks "ab" 1 0 (λ _, ["abc"; "d"]) = Normal [c0; c1]
    ∧ Chunk.startChar c1 = 3
    ∧ String.length "ab" = 2
    ∧ ¬ Chunk.startChar c1 ≤ String.length "ab".
Proof.
  eexists _, _. split_and!; [reflexivity|reflexivity|reflexivity|]. simpl. lia.
Qed.

(** * Normalization *)

Lemma ownProperty_Normal parsed fieldId :
  nullish parsed = false → ∃ own, ownProperty parsed fieldId = Normal own.
Proof. destruct parsed; simpl; try done; eauto. Qed.

Lemma ownProperty_Throw parsed fieldId :
  nullish parsed = true → ownProperty parsed fieldId = Throw TypeError.
Proof. by destruct parsed. Qed.

Lemma normalizeField_Normal parsed fieldId field :
  nullish parsed = false →
  normalizeField parsed fieldId field
  = Normal (normalizeValue field (fieldValue parsed fieldId)).
Proof.
  intros H. unfold normalizeField, fieldValue.
  destruct (ownProperty_Normal parsed fieldId H) as [own ->]. simpl.
  by destruct own.
Qed.

Lemma normalizeEntries_lookup parsed entries acc :
  nullish parsed = false →
  NoDup entries.*1 →
  ∃ normalized,
    normalizeEntries parsed entries acc = Normal normalized
    ∧ ∀ k, normalized !! k
           = match (list_to_map entries : gmap string SchemaNode) !! k with
             | Some field => Some (normalizeValue field (fieldValue parsed k))
             | None => acc !! k
             end.
Proof.
  intros Hp. revert acc.
  induction entries as [|[k0 f0] rest IH]; intros acc Hnd.
  - exists acc. split; [done|]. intros k. simpl. by rewrite lookup_empty.
  - rewrite fmap_cons in Hnd. apply NoDup_cons in Hnd as [Hk0 Hnd].
    cbn [normalizeEntries]. rewrite normalizeField_Normal by done. simpl.
    destruct (IH (<[k0:=normalizeValue f0 (fieldValue parsed k0)]> acc) Hnd)
      as (normalized & -> & Hlook).
    exists normalized. split; [done|]. intros k. rewrite Hlook.
    destruct (decide (k = k0)) as [->|Hne].
    + rewrite (not_elem_of_list_to_map_1 _ k0) by done.
      simpl. by rewrite !lookup_insert_eq.
    + cbn [list_to_map foldr uncurry]. rewrite !lookup_insert_ne by congruence. done.
Qed.

(** The normalized object has exactly the keys of the schema. *)
Lemma normalize_Normal schema parsed :
  nullish parsed = false →
  ∃ normalized,
    normalize schema parsed = Normal normalized
    ∧ ∀ k, normalized !! k
           = (λ field, normalizeValue field (fieldValue parsed k))
               <$> properties schema !! k.
Proof.
  intros Hp. unfold normalize.
  destruct (normalizeEntries_lookup parsed (map_to_list (properties schema)) ∅ Hp)
    as (normalized & Hrun & Hlook).
  { apply NoDup_fst_map_to_list. }
  exists normalized. split; [done|]. intros k. rewrite Hlook.
  rewrite list_to_map_to_list.
  destruct (properties schema !! k); [done|]. by rewrite lookup_empty.
Qed.

Lemma normalize_no_fields schema parsed :
  properties schema = ∅ → normalize schema parsed = Normal ∅.
Proof. unfold normalize. intros ->. by rewrite map_to_list_empty. Qed.

(** [null] has no properties to test: the first field throws. *)
Lemma normalize_Throw schema parsed :
  nullish parsed = true → properties schema ≠ ∅ →
  normalize schema parsed = Throw TypeError.
Proof.
  intros Hp Hne. unfold normalize.
  destruct (map_to_list (properties schema)) as [|[k0 f0] rest] eqn:E.
  - by apply map_to_list_empty_iff in E.
  - cbn [normalizeEntries]. unfold normalizeField.
    by rewrite ownProperty_Throw.
Qed.

Lemma normalizeValue_null field : normalizeValue field JNull = JNull.
Proof.
  unfold normalizeValue. simpl.
  destruct (Schema.enum field); by destruct field.
Qed.

Lemma normalize_empty_object schema :
  normalize schema (JObj ∅) = Normal ((λ _, JNull) <$> properties schema).
Proof.
  destruct (normalize_Normal schema (JObj ∅) eq_refl) as (normalized & -> & Hlook).
  f_equal. apply map_eq. intros k. rewrite Hlook, lookup_fmap.
  destruct (properties schema !! k); simpl; [|done].
  unfold fieldValue. simpl. rewrite lookup_empty. by rewrite normalizeValue_null.
Qed.

Lemma normalizeValue_not_member field allowed v :
  Schema.enum field = Some allowed → matchesEnum allowed v = false →
  normalizeValue field v = JNull.
Proof.
  intros He Hm. unfold normalizeValue. rewrite He, Hm. simpl.
  destruct (nullish v) eqn:Hv; simpl.
  - destruct v; try done; by destruct field.
  - by destruct field.
Qed.

Lemma normalizeValue_array_items d items itemEnum entries :
  Schema.enum items = Some itemEnum →
  Schema.type items ≠ TObject → Schema.type items ≠ TArray →
  normalizeValue (ArraySchemaNode d None items) (JArr entries)
  = if (0 <? length itemEnum)%nat
    then JArr (List.filter (matchesEnum itemEnum) entries)
    else JArr entries.
Proof.
  intros He Ho Ha. unfold normalizeValue. simpl. rewrite He.
  rewrite !bool_decide_eq_false_2 by done. simpl.
  rewrite andb_true_r. by destruct (0 <? length itemEnum)%nat.
Qed.


(** No array is a member of an enumeration. *)
Lemma matchesEnum_array allowed entries : matchesEnum allowed (JArr entries) = false.
Proof.
  unfold matchesEnum. induction allowed as [|a allowed IH]; [done|].
  simpl. rewrite IH. by destruct a.
Qed.


(** * Sorting by a numeric key *)

Section sort_by_key.

Context {A : Type} (key : A → nat).

Let compare (a b : A) : Z := (Z.of_nat (key a) - Z.of_nat (key b))%Z.
Let le (a b : A) : Prop := key a ≤ key b.

Lemma insert_Permutation x l : JsSort.insert compare x l ≡ₚ x :: l.
Proof.
  induction l as [|y l IH]; simpl; [done|].
  destruct (compare x y <=? 0)%Z; [done|].
  rewrite IH. apply Permutation_swap.
Qed.

Lemma sort_Permutation l : JsSort.sort compare l ≡ₚ l.
Proof.
  induction l as [|x l IH]; simpl; [done|].
  fold (JsSort.sort compare l). by rewrite insert_Permutation, IH.
Qed.

Lemma insert_Sorted x l : Sorted le l → Sorted le (JsSort.insert compare x l).
Proof.
  induction 1 as [|y l Hl IH Hy]; simpl.
  - repeat constructor.
  - destruct (Z.leb_spec (compare x y) 0) as [Hc|Hc]; unfold compare in Hc.
    + constructor; [by constructor|]. constructor. unfold le. lia.
    + constructor; [done|].
      destruct Hy as [|z l Hz]; simpl.
      * constructor. unfold le. lia.
      * destruct (compare x z <=? 0)%Z; constructor; unfold le in *; lia.
Qed.

Lemma sort_Sorted l : Sorted le (JsSort.sort compare l).
Proof.
  induction l as [|x l IH]; simpl; [constructor|]. by apply insert_Sorted.
Qed.

Lemma NoDup_fmap_eq (l : list A) x y :
  NoDup (key <$> l) → x ∈ l → y ∈ l → key x = key y → x = y.
Proof.
  induction l as [|z l IH]; [by intros _ ?%elem_of_nil|].
  rewrite fmap_cons, NoDup_cons. intros [Hz Hnd].
  rewrite !elem_of_cons. intros [->|Hx] [->|Hy] Hk; auto.
  - destruct Hz. rewrite Hk. by apply list_elem_of_fmap_2.
  - destruct Hz. rewrite <-Hk. by apply list_elem_of_fmap_2.
Qed.

(** Sorting a permutation of a list whose keys increase strictly gives
    that list back. *)
Lemma sort_unique l l' :
  l ≡ₚ l' → Sorted le l' → NoDup (key <$> l') → JsSort.sort compare l = l'.
Proof.
  intros Hperm Hsorted Hnd.
  assert (Transitive le) by (intros a b c; unfold le; lia).
  apply (Sorted_unique_strong le); [|apply sort_Sorted|done|].
  - intros x1 x2 Hx1 Hx2 H1 H2.
    apply (NoDup_fmap_eq l'); [done| |done|unfold le in *; lia].
    by rewrite <-Hperm, <-(sort_Permutation l).
  - by rewrite sort_Permutation.
Qed.

End sort_by_key.

(** * The worker pool *)

Lemma awaitingFrom_chunks w ws : (awaitingFrom w ws).*1.*2 = awaitingChunks ws.
Proof.
  revert w. induction ws as [|[c o|] ws IH]; intros w; simpl; [done|..].
  - unfold awaitingChunks. simpl. f_equal. apply IH.
  - apply IH.
Qed.

Lemma awaitingFrom_lookup w ws w' c o :
  (w', c, o) ∈ awaitingFrom w ws → w ≤ w' ∧ ws !! (w' - w) = Some (Awaiting c o).
Proof.
  revert w. induction ws as [|[c0 o0|] ws IH]; intros w; simpl.
  - by intros ?%elem_of_nil.
  - rewrite elem_of_cons. intros [[= -> -> ->]|H].
    + rewrite Nat.sub_diag. done.
    + apply IH in H as [Hle H]. split; [lia|].
      by replace (w' - w) with (S (w' - S w)) by lia.
  - intros H. apply IH in H as [Hle H]. split; [lia|].
    by replace (w' - w) with (S (w' - S w)) by lia.
Qed.

Lemma awaitingFrom_nil w ws : awaitingFrom w ws = [] → awaitingChunks ws = [].
Proof. intros H. by rewrite <-(awaitingFrom_chunks w), H. Qed.

Lemma awaitingChunks_lookup ws w c o :
  ws !! w = Some (Awaiting c o) →
  awaitingChunks ws ≡ₚ c :: awaitingChunks (take w ws) ++ awaitingChunks (drop (S w) ws).
Proof.
  intros H. rewrite <-(take_drop_middle ws w _ H) at 1.
  unfold awaitingChunks. rewrite omap_app. simpl.
  by rewrite <-Permutation_middle.
Qed.

Lemma awaitingChunks_insert ws w c o st :
  ws !! w = Some (Awaiting c o) →
  awaitingChunks (<[w:=st]> ws)
  ≡ₚ awaitingChunks [st] ++ awaitingChunks (take w ws) ++ awaitingChunks (drop (S w) ws).
Proof.
  intros H. rewrite insert_take_drop by (by eapply lookup_lt_Some).
  unfold awaitingChunks. rewrite omap_app. simpl.
  destruct st; simpl; [|done]. by rewrite <-Permutation_middle.
Qed.

Lemma awaitingChunks_snoc ws st :
  awaitingChunks (ws ++ [st]) = awaitingChunks ws ++ awaitingChunks [st].
Proof. unfold awaitingChunks. by rewrite omap_app. Qed.

Lemma awaitingFrom_nil_Finished w ws :
  awaitingFrom w ws = [] → ws ≠ [] → Finished ∈ ws.
Proof.
  destruct ws as [|[c o|] ws]; simpl; [done|done|]. intros _ _. apply elem_of_cons. by left.
Qed.

Lemma elem_of_list_insert_inv {A} (l : list A) i x y :
  y ∈ <[i:=x]> l → y = x ∨ y ∈ l.
Proof.
  destruct (decide (i < length l)) as [Hi|Hi].
  - rewrite insert_take_drop by done.
    rewrite elem_of_app, elem_of_cons. intros [H|[H|H]]; auto; right.
    + by eapply subseteq_take.
    + by eapply subseteq_drop.
  - rewrite list_insert_ge by lia. auto.
Qed.

Section pool.

Variable JSON_parse : string → option JsValue.
Variable buildPromptForChunk : Chunk.t → SchemaField → string.
Variable openai : JsObject → CallOutcome.
Variable clientParams : JsObject.
Variable defaultRequestParams : option JsObject.
Variable schema : SchemaField.
Variable llmCallOptions : JsObject.
Variable chunks : list Chunk.t.

#[local] Abbreviation request :=
  (chunkRequest buildPromptForChunk clientParams defaultRequestParams
                schema llmCallOptions).
#[local] Abbreviation result :=
  (chunkResult JSON_parse buildPromptForChunk openai clientParams
               defaultRequestParams schema llmCallOptions).
#[local] Abbreviation enter :=
  (workerEnter buildPromptForChunk openai clientParams defaultRequestParams
               schema llmCallOptions chunks).
#[local] Abbreviation resume :=
  (workerResume JSON_parse buildPromptForChunk openai clientParams
                defaultRequestParams schema llmCallOptions chunks).
#[local] Abbreviation spawnWorkers :=
  (spawn buildPromptForChunk openai clientParams defaultRequestParams
         schema llmCallOptions chunks).
#[local] Abbreviation settled :=
  (settled JSON_parse buildPromptForChunk openai clientParams
           defaultRequestParams schema llmCallOptions).
#[local] Abbreviation run :=
  (runPool JSON_parse buildPromptForChunk openai clientParams
           defaultRequestParams schema llmCallOptions chunks).
#[local] Abbreviation PoolInv :=
  (PoolInv JSON_parse buildPromptForChunk openai clientParams
           defaultRequestParams schema llmCallOptions chunks).

(** Only the property test on [null] can make a worker throw. *)
Lemma normalize_cases parsed :
  (∃ normalized, normalize schema parsed = Normal normalized)
  ∨ normalize schema parsed = Throw TypeError.
Proof.
  destruct (nullish parsed) eqn:Hp.
  - destruct (decide (properties schema = ∅)) as [He|He].
    + left. exists ∅. by apply normalize_no_fields.
    + right. by apply normalize_Throw.
  - left. destruct (normalize_Normal schema parsed Hp) as (n & Hn & _). eauto.
Qed.

Lemma workerSettle_cases chunk pending :
  (∃ cr, workerSettle JSON_parse schema chunk pending = Normal cr
         ∧ ChunkResult.chunkId cr = Chunk.id chunk)
  ∨ workerSettle JSON_parse schema chunk pending = Throw TypeError.
Proof.
  unfold workerSettle.
  match goal with |- context [normalize schema ?v] =>
    destruct (normalize_cases v) as [[n ->]| ->] end; simpl; eauto.
Qed.

Lemma settled_chunkId chunk : ChunkResult.chunkId (settled chunk) = Chunk.id chunk.
Proof.
  unfold settled, chunkResult.
  destruct (workerSettle_cases chunk (openai (request chunk))) as [(cr & -> & H)| ->];
    done.
Qed.

Lemma workerEnter_spec p :
  ∃ st p',
    enter p = (st, p')
    ∧ pointer p' = S (pointer p)
    ∧ workers p' = workers p
    ∧ rawResults p' = rawResults p
    ∧ take (pointer p') chunks = take (pointer p) chunks ++ awaitingChunks [st]
    ∧ calls p' = calls p ++ (request <$> awaitingChunks [st])
    ∧ match st with
      | Awaiting c o => o = openai (request c)
      | Finished => length chunks ≤ pointer p'
      end.
Proof.
  unfold workerEnter.
  destruct (chunks !! pointer p) as [c|] eqn:E.
  - eexists _, _. split; [done|]. simpl. split_and!; try done.
    by rewrite (take_S_r _ _ c).
  - eexists _, _. split; [done|]. simpl. split_and!; try done.
    + apply lookup_ge_None in E.
      rewrite !take_ge by lia. by rewrite app_nil_r.
    + by rewrite app_nil_r.
    + apply lookup_ge_None in E. lia.
Qed.

Lemma spawn_inv wcount p :
  PoolInv p [] → PoolInv (spawnWorkers wcount p) []
  ∧ length (workers (spawnWorkers wcount p)) = length (workers p) + wcount.
Proof.
  revert p. induction wcount as [|wcount IH]; intros p Hp; simpl.
  - split; [done|lia].
  - destruct (workerEnter_spec p) as (st & p' & -> & Hptr & Hws & Hraw & Htake & Hcalls & Hst).
    match goal with |- context [spawn _ _ _ _ _ _ _ _ ?q] =>
      destruct (IH q) as [Hinv Hlen] end.
    + destruct Hp as [inv_results0 inv_normal0 inv_claimed0 inv_pending0
                        inv_finished0 inv_calls0].
      constructor; simpl.
      * by rewrite Hraw.
      * done.
      * rewrite Hws, awaitingChunks_snoc, Htake.
        simpl in *. by rewrite inv_claimed0.
      * rewrite Hws. apply Forall_app. split; [done|].
        constructor; [|done]. by destruct st.
      * rewrite Hws, elem_of_app, list_elem_of_singleton.
        intros [H|H]; [apply inv_finished0 in H; lia|]. by subst st.
      * by rewrite Hcalls, Htake, fmap_app, inv_calls0.
    + split; [done|]. rewrite Hlen. simpl. rewrite Hws, length_app. simpl. lia.
Qed.

Lemma resume_inv w c o p done :
  PoolInv p done →
  workers p !! w = Some (Awaiting c o) →
  (∃ p', resume w c o p = Normal p'
         ∧ PoolInv p' (done ++ [c])
         ∧ length (workers p') = length (workers p))
  ∨ (resume w c o p = Throw TypeError ∧ c ∈ chunks ∧ result c = Throw TypeError).
Proof.
  intros [Hraw Hnormal Hclaimed Hpending Hfin Hcalls] Hw.
  assert (o = openai (request c)) as ->.
  { rewrite Forall_forall in Hpending.
    apply (Hpending (Awaiting c o)). by eapply list_elem_of_lookup_2. }
  assert (c ∈ chunks) as Hc.
  { eapply (subseteq_take (pointer p)). rewrite <-Hclaimed.
    rewrite elem_of_app. right. rewrite (awaitingChunks_lookup _ w c _ Hw).
    apply elem_of_cons. by left. }
  unfold workerResume. fold (result c).
  destruct (workerSettle_cases c (openai (request c))) as [(cr & Hcr & _)|Hcr];
    fold (result c) in Hcr; rewrite Hcr; simpl; [left|by right].
  assert (settled c = cr) as Hs by (unfold settled; by rewrite Hcr).
  match goal with |- context [enter ?q] =>
    destruct (workerEnter_spec q)
      as (st & p' & -> & Hptr & Hws & Hraw' & Htake & Hcalls' & Hst) end.
  eexists. split; [done|].
  split; [|cbn [workers]; by rewrite length_insert, Hws].
  constructor; cbn [workers rawResults calls pointer].
  - by rewrite Hraw', Hraw, fmap_app, <-Hs.
  - apply Forall_app. split; [done|]. constructor; [|done]. by rewrite Hs.
  - rewrite Hws, Htake, <-Hclaimed.
    rewrite (awaitingChunks_insert _ w c _ st Hw).
    rewrite (awaitingChunks_lookup _ w c _ Hw).
    rewrite <-!app_assoc. apply Permutation_app_head. cbn [app].
    by rewrite (Permutation_app_comm (awaitingChunks [st])).
  - rewrite Hws. apply Forall_insert; [done|]. by destruct st.
  - rewrite Hws. intros [H|H]%elem_of_list_insert_inv.
    + subst st. exact Hst.
    + apply Hfin in H. rewrite Hptr. simpl. lia.
  - by rewrite Hcalls', Htake, fmap_app, Hcalls.
Qed.

(** Whatever the completion order, the pool stops within one step per
    chunk; it ends normally with the results of all the chunks, in some
    order, or with the [TypeError] of a chunk whose response is [null]. *)
Lemma runPool_spec fuel sched t p done :
  PoolInv p done →
  workers p ≠ [] →
  length chunks ≤ fuel + length done →
  match run fuel sched t p with
  | AllSettled p' =>
    Forall (λ c, result c = Normal (settled c)) chunks
    ∧ rawResults p' ≡ₚ settled <$> chunks
    ∧ calls p' = request <$> chunks
  | WorkerThrew e p' =>
    e = TypeError
    ∧ (∃ c, c ∈ chunks ∧ result c = Throw TypeError)
    ∧ ∃ n, calls p' = request <$> take n chunks
  | PoolOutOfFuel => False
  end.
Proof.
  revert t p done. induction fuel as [|fuel IH]; intros t p done Hinv Hne Hfuel;
    cbn [runPool];
    destruct (awaitingFrom 0 (workers p)) as [|a rest] eqn:Ea.
  1,3: destruct Hinv as [Hraw Hnormal Hclaimed Hpending Hfin Hcalls];
       pose proof (Hfin (awaitingFrom_nil_Finished _ _ Ea Hne)) as Hptr;
       rewrite (awaitingFrom_nil _ _ Ea), app_nil_r, take_ge in Hclaimed by done;
       split_and!;
       [ by rewrite <-Hclaimed | by rewrite Hraw, Hclaimed
       | by rewrite Hcalls, take_ge ].
  - destruct Hinv as [Hraw Hnormal Hclaimed Hpending Hfin Hcalls].
    apply Permutation_length in Hclaimed.
    rewrite length_app, length_take in Hclaimed.
    rewrite <-(awaitingFrom_chunks 0), Ea in Hclaimed. simpl in *.
    rewrite !length_fmap in Hclaimed. simpl in *. lia.
  - assert (∃ w c o, nth (sched t `mod` length (a :: rest)) (a :: rest) a = (w, c, o)
                     ∧ workers p !! w = Some (Awaiting c o)) as (w & c & o & -> & Hw).
    { destruct (lookup_lt_is_Some_2 (a :: rest) (sched t `mod` length (a :: rest)))
        as [[[w c] o] Hx].
      { apply Nat.mod_upper_bound. done. }
      exists w, c, o. split; [by apply nth_lookup_Some|].
      apply list_elem_of_lookup_2 in Hx. rewrite <-Ea in Hx.
      apply awaitingFrom_lookup in Hx as [_ Hx]. by rewrite Nat.sub_0_r in Hx. }
    destruct (resume_inv w c o p done Hinv Hw)
      as [(p' & -> & Hinv' & Hlen)|(-> & Hc & Hthrow)].
    + apply (IH (S t) p' (done ++ [c]) Hinv').
      * intros Hnil. rewrite Hnil in Hlen. simpl in Hlen.
        destruct (workers p); simpl in *; [done|lia].
      * rewrite length_app. simpl. lia.
    + split_and!; [done|eauto|]. destruct Hinv. eauto.
Qed.

Lemma pool0_inv : PoolInv pool0 [].
Proof.
  constructor; simpl; try done. by intros ?%elem_of_nil.
Qed.

(** [await Promise.all(workers)] for the workers that [extract] starts. *)
Lemma runPool_started sched wcount :
  1 ≤ wcount →
  match run (length chunks) sched 0 (spawnWorkers wcount pool0) with
  | AllSettled p' =>
    Forall (λ c, result c = Normal (settled c)) chunks
    ∧ rawResults p' ≡ₚ settled <$> chunks
    ∧ calls p' = request <$> chunks
  | WorkerThrew e p' =>
    e = TypeError
    ∧ (∃ c, c ∈ chunks ∧ result c = Throw TypeError)
    ∧ ∃ n, calls p' = request <$> take n chunks
  | PoolOutOfFuel => False
  end.
Proof.
  intros Hw. destruct (spawn_inv wcount pool0 pool0_inv) as [Hinv Hlen].
  apply (runPool_spec _ _ _ _ [] Hinv).
  - intros Hnil. rewrite Hnil in Hlen. simpl in Hlen. lia.
  - simpl. lia.
Qed.

End pool.

(** * [extract] *)

Lemma buildChunks_Normal_domain text chunkTokens overlapTokens tokenizer chunks :
  buildChunks text chunkTokens overlapTokens tokenizer = Normal chunks →
  tokenizer text = [] ∨ (1 ≤ chunkTokens)%Z.
Proof.
  unfold buildChunks, buildChunks_fuel.
  destruct (tokenizer text) as [|tok rest] eqn:E; [by left|].
  destruct (Z.le_gt_cases 1 chunkTokens) as [H|H]; [by right|].
  simpl. destruct (JsString.indexOf text tok 0); simpl;
    unfold JsArray.get;
    match goal with |- context [(?z <? 0)%Z] =>
      destruct (Z.ltb_spec z 0); [done|lia] end.
Qed.

(** [buildChunks] returns or throws: the fuel it is given is enough for
    every window size. *)
Lemma buildChunks_settles text chunkTokens overlapTokens tokenizer :
  buildChunks text chunkTokens overlapTokens tokenizer ≠ OutOfFuel.
Proof.
  unfold buildChunks, buildChunks_fuel. cbv zeta. case_decide; [done|].
  apply buildChunks_loop_fuel; [apply locateTokens_length|lia].
Qed.

(** Window ids are the positions in the returned array. *)
Lemma buildChunks_Normal_ids text chunkTokens overlapTokens tokenizer chunks :
  buildChunks text chunkTokens overlapTokens tokenizer = Normal chunks →
  Chunk.id <$> chunks = seq 0 (length chunks).
Proof.
  intros Hrun. pose proof (buildChunks_Normal_domain _ _ _ _ _ Hrun) as Hdom.
  destruct (buildChunks_spec text chunkTokens overlapTokens tokenizer Hdom)
    as (chunks' & Hrun' & Hwin & _).
  unfold buildChunks in Hrun. rewrite Hrun' in Hrun by done. injection Hrun as ->.
  apply list_eq. intros k. rewrite list_lookup_fmap.
  destruct (chunks !! k) as [c|] eqn:Ek; simpl.
  - destruct (Hwin k c Ek) as [_ Hw]. apply windowAt_inv in Hw as [-> _].
    symmetry. apply lookup_seq.
    split; [done|]. by eapply lookup_lt_Some.
  - symmetry. apply lookup_ge_None. rewrite length_seq. by apply lookup_ge_None.
Qed.

Lemma seq_keys_sorted {A} (key : A → nat) (l : list A) a :
  key <$> l = seq a (length l) →
  Sorted (λ x y, key x ≤ key y) l ∧ NoDup (key <$> l)
  ∧ StronglySorted lt (key <$> l).
Proof.
  intros H. split_and!.
  - revert a H. induction l as [|x l IH]; intros a H; [constructor|].
    simpl in H. injection H as Hx Hl. constructor; [by eapply IH|].
    destruct l as [|y l]; constructor. simpl in Hl. injection Hl as Hy _. lia.
  - rewrite H. apply NoDup_seq.
  - rewrite H. clear H. generalize (length l). intros n. revert a.
    induction n as [|n IH]; intros a; simpl; constructor; [apply IH|].
    apply Forall_forall. intros y Hy%elem_of_seq. lia.
Qed.

Section extract.

Variable JSON_parse : string → option JsValue.
Variable defaultTokenizer : string → list string.
Variable buildPromptForChunk : Chunk.t → SchemaField → string.
Variable buildFinalReductionPrompt : list ChunkResult.t → SchemaField → string.
Variable openai : JsObject → CallOutcome.
Variable clientParams : JsObject.
Variable defaultRequestParams : option JsObject.

#[local] Abbreviation request :=
  (chunkRequest buildPromptForChunk clientParams defaultRequestParams).
#[local] Abbreviation result :=
  (chunkResult JSON_parse buildPromptForChunk openai clientParams
               defaultRequestParams).
#[local] Abbreviation settled :=
  (settled JSON_parse buildPromptForChunk openai clientParams
           defaultRequestParams).
#[local] Abbreviation reduction :=
  (reductionRequest buildFinalReductionPrompt clientParams defaultRequestParams).
#[local] Abbreviation extract :=
  (extract JSON_parse defaultTokenizer buildPromptForChunk
           buildFinalReductionPrompt openai clientParams defaultRequestParams).

(** The outcome of [extract] does not depend on the completion order: it
    returns the results of the windows in window order, or it is rejected
    with the [TypeError] of a window whose response is [null]. *)
Lemma extract_run sched text opts sch chunks :
  schema opts = Some sch →
  chunksOf defaultTokenizer text opts = Normal chunks →
  let llm := default ∅ (llmCallOptions opts) in
  let rs := settled sch llm <$> chunks in
  (Forall (λ c, result sch llm c = Normal (settled sch llm c)) chunks
   ∧ extract sched text opts
     = (Normal {| json := reduce JSON_parse (openai (reduction sch llm rs));
                  metadata := {| chunkCount := length chunks;
                                 perFieldProvenance := buildProvenance sch rs;
                                 rawChunkResults := rs |} |},
        (request sch llm <$> chunks) ++ [reduction sch llm rs]))
  ∨ ((∃ c, c ∈ chunks ∧ result sch llm c = Throw TypeError)
     ∧ ∃ n, extract sched text opts = (Throw TypeError, request sch llm <$> take n chunks)).
Proof.
  intros Hsch Hchunks llm rs. unfold extract.
  unfold chunksOf in Hchunks. rewrite Hsch, Hchunks. fold llm.
  set (wcount := Z.to_nat _).
  assert (1 ≤ wcount) as Hw by (unfold wcount; lia).
  pose proof (runPool_started JSON_parse buildPromptForChunk openai clientParams
                defaultRequestParams sch llm chunks sched wcount Hw) as Hrun.
  destruct (runPool _ _ _ _ _ _ _ _ _ _ _ _) as [p|e p|]; [| |done].
  - destruct Hrun as (Hall & Hperm & Hcalls). left. split; [done|].
    pose proof (buildChunks_Normal_ids _ _ _ _ _ Hchunks) as Hids.
    assert (ChunkResult.chunkId <$> rs = seq 0 (length rs)) as Hkeys.
    { unfold rs. rewrite <-list_fmap_compose, length_fmap, <-Hids.
      apply list_fmap_ext. intros _ c _. simpl. apply settled_chunkId. }
    destruct (seq_keys_sorted _ _ _ Hkeys) as (Hsorted & Hnd & _).
    rewrite (sort_unique ChunkResult.chunkId (rawResults p) rs Hperm Hsorted Hnd).
    by rewrite Hcalls.
  - destruct Hrun as (-> & Hc & n & Hcalls). right. split; [done|].
    exists n. by rewrite Hcalls.
Qed.

(** [extract] settles in every run: the fuel of its two loops is enough. *)
Lemma extract_settles sched text opts : (extract sched text opts).1 ≠ OutOfFuel.
Proof.
  destruct (schema opts) as [sch|] eqn:Hsch;
    [|unfold extract; by rewrite Hsch].
  destruct (chunksOf defaultTokenizer text opts) as [chunks|e|] eqn:Hchunks.
  - by destruct (extract_run sched text opts sch chunks Hsch Hchunks)
      as [[_ ->]|[_ [n ->]]].
  - unfold extract, chunksOf in *. by rewrite Hsch, Hchunks.
  - by apply buildChunks_settles in Hchunks.
Qed.



Lemma buildProvenance_lookup sch rs k :
  buildProvenance sch rs !! k
  = (λ _, {| sourceChunks := sourceChunksOf rs k |}) <$> properties sch !! k.
Proof.
  unfold buildProvenance.
  assert (∀ (keys : list string) (acc : gmap string Provenance),
            foldl (λ provenance fieldId,
                     <[fieldId := {| sourceChunks := sourceChunksOf rs fieldId |}]>
                       provenance) acc keys !! k
            = if decide (k ∈ keys)
              then Some {| sourceChunks := sourceChunksOf rs k |}
              else acc !! k) as Hfold.
  { induction keys as [|k0 keys IH]; intros acc; cbn [foldl].
    - case_decide as Hin; [by apply elem_of_nil in Hin|done].
    - rewrite IH.
      destruct (decide (k ∈ keys)) as [Hin|Hin],
               (decide (k ∈ k0 :: keys)) as [Hin'|Hin']; try done.
      + destruct Hin'. apply elem_of_cons. auto.
      + apply elem_of_cons in Hin' as [->|?]; [|done].
        by rewrite lookup_insert_eq.
      + rewrite lookup_insert_ne; [done|].
        intros ->. destruct Hin'. apply elem_of_cons. auto. }
  rewrite Hfold, lookup_empty.
  destruct (properties sch !! k) as [field|] eqn:E; simpl.
  - case_decide as Hin; [done|]. destruct Hin.
    apply list_elem_of_fmap. exists (k, field). split; [done|].
    by apply elem_of_map_to_list.
  - case_decide as Hin; [|done].
    apply list_elem_of_fmap in Hin as ((k' & field) & -> & Hin%elem_of_map_to_list).
    simpl in E. congruence.
Qed.



(** What a returning [extract] returns. *)
Lemma extract_Normal sched text opts res log :
  extract sched text opts = (Normal res, log) →
  ∃ sch chunks,
    let llm := default ∅ (llmCallOptions opts) in
    let rs := settled sch llm <$> chunks in
    schema opts = Some sch
    ∧ chunksOf defaultTokenizer text opts = Normal chunks
    ∧ Forall (λ c, result sch llm c = Normal (settled sch llm c)) chunks
    ∧ res = {| json := reduce JSON_parse (openai (reduction sch llm rs));
               metadata := {| chunkCount := length chunks;
                              perFieldProvenance := buildProvenance sch rs;
                              rawChunkResults := rs |} |}
    ∧ log = (request sch llm <$> chunks) ++ [reduction sch llm rs].
Proof.
  intros Hrun.
  destruct (schema opts) as [sch|] eqn:Hsch;
    [|unfold extract in Hrun; by rewrite Hsch in Hrun].
  destruct (chunksOf defaultTokenizer text opts) as [chunks| |] eqn:Hchunks;
    [|unfold extract, chunksOf in *; by rewrite Hsch, Hchunks in Hrun..].
  exists sch, chunks.
  destruct (extract_run sched text opts sch chunks Hsch Hchunks)
    as [[Hall Heq]|[_ [n Heq]]]; rewrite Heq in Hrun; [|done].
  injection Hrun as <- <-. done.
Qed.

Lemma settled_ids text opts sch llm chunks :
  chunksOf defaultTokenizer text opts = Normal chunks →
  ChunkResult.chunkId <$> (settled sch llm <$> chunks)
  = seq 0 (length (settled sch llm <$> chunks)).
Proof.
  intros Hchunks. rewrite <-list_fmap_compose, length_fmap.
  rewrite <-(buildChunks_Normal_ids _ _ _ _ _ Hchunks).
  apply list_fmap_ext. intros _ c _. simpl. apply settled_chunkId.
Qed.

(** C9: without a schema, [extract] is rejected with the configuration
    error before any request is sent: the log of requests is empty. *)
Theorem extract_requires_schema sched text opts :
  schema opts = None →
  extract sched text opts = (Throw (Error "schema is required"), []).
Proof. intros H. unfold extract. by rewrite H. Qed.

(** C5: whatever the completion order [sched], the results that [extract]
    returns carry the ids 0, 1, 2, ... in this order, and the last request
    sent, the reduction, is built from the same sorted list. *)
Theorem rawChunkResults_sorted sched text opts res log :
  extract sched text opts = (Normal res, log) →
  ∃ sch,
    let rs := rawChunkResults (metadata res) in
    schema opts = Some sch
    ∧ ChunkResult.chunkId <$> rs = seq 0 (length rs)
    ∧ Sorted lt (ChunkResult.chunkId <$> rs)
    ∧ last log = Some (reduction sch (default ∅ (llmCallOptions opts)) rs).
Proof.
  intros (sch & chunks & Hsch & Hchunks & Hall & -> & ->)%extract_Normal.
  exists sch. cbn [metadata rawChunkResults].
  pose proof (settled_ids text opts sch (default ∅ (llmCallOptions opts)) chunks Hchunks)
    as Hkeys.
  split_and!; [done|done| |by rewrite last_snoc].
  apply StronglySorted_Sorted. by eapply seq_keys_sorted.
Qed.



Lemma spread_lookup (target source : JsObject) key :
  spread target source !! key
  = match source !! key with Some v => Some v | None => target !! key end.
Proof.
  unfold spread. rewrite lookup_union.
  by destruct (source !! key), (target !! key).
Qed.

(** The request object, key by key. *)
Lemma requestBodyFor_lookup llm prompt :
  let req := requestBodyFor clientParams defaultRequestParams llm prompt in
  req !! "model" = Some (getProp clientParams "model")
  ∧ req !! "messages"
    = Some (JArr [JObj (<[ "role" := JStr "user" ]>
                          (<[ "content" := JStr prompt ]> ∅))])
  ∧ (∀ key, key ≠ "model" → key ≠ "messages" → key ≠ "response_format" →
            req !! key = layered clientParams defaultRequestParams llm key)
  ∧ req !! "response_format"
    = Some (match layered clientParams defaultRequestParams llm "response_format" with
            | Some v =>
              if ToBoolean v then v else JObj {[ "type" := JStr "json_object" ]}
            | None => JObj {[ "type" := JStr "json_object" ]}
            end).
Proof.
  intros req. unfold req, requestBodyFor.
  set (body := spread (spread (spread _ _) clientParams) llm).
  assert (∀ key, body !! key = layered clientParams defaultRequestParams llm key)
    as Hbody.
  { intros key. unfold body, layered. rewrite !spread_lookup.
    by destruct (llm !! key), (clientParams !! key),
                (default ∅ defaultRequestParams !! key). }
  assert (getProp (<["messages":=JArr [JObj (<["role":=JStr "user"]>
                                              (<["content":=JStr prompt]> ∅))]]>
                     (<["model":=getProp clientParams "model"]> body))
                  "response_format"
          = default JUndefined
              (layered clientParams defaultRequestParams llm "response_format"))
    as Hfmt.
  { unfold getProp. by rewrite !lookup_insert_ne, Hbody by done. }
  rewrite Hfmt.
  destruct (layered clientParams defaultRequestParams llm "response_format")
    as [v|] eqn:Hl; simpl.
  - destruct (ToBoolean v) eqn:Hv.
    + split_and!.
      * by rewrite lookup_insert_ne, lookup_insert_eq.
      * by rewrite lookup_insert_eq.
      * intros key H1 H2 H3. by rewrite !lookup_insert_ne, Hbody by done.
      * by rewrite !lookup_insert_ne, Hbody by done.
    + split_and!.
      * by rewrite !lookup_insert_ne, lookup_insert_eq by done.
      * by rewrite lookup_insert_ne, lookup_insert_eq.
      * intros key H1 H2 H3. by rewrite !lookup_insert_ne, Hbody by done.
      * by rewrite lookup_insert_eq.
  - split_and!.
    + by rewrite !lookup_insert_ne, lookup_insert_eq by done.
    + by rewrite lookup_insert_ne, lookup_insert_eq.
    + intros key H1 H2 H3. by rewrite !lookup_insert_ne, Hbody by done.
    + by rewrite lookup_insert_eq.
Qed.

(** Every request that [extract] sends is built by [requestBodyFor]. *)
Lemma extract_log sched text opts req :
  req ∈ (extract sched text opts).2 →
  ∃ prompt,
    req = requestBodyFor clientParams defaultRequestParams
                         (default ∅ (llmCallOptions opts)) prompt.
Proof.
  destruct (schema opts) as [sch|] eqn:Hsch;
    [|unfold extract; rewrite Hsch; by intros ?%elem_of_nil].
  destruct (chunksOf defaultTokenizer text opts) as [chunks|e|] eqn:Hchunks.
  - destruct (extract_run sched text opts sch chunks Hsch Hchunks)
      as [[_ ->]|[_ [n ->]]]; simpl.
    + rewrite elem_of_app, list_elem_of_singleton.
      intros [(c & -> & _)%list_elem_of_fmap | ->]; eauto.
    + intros (c & -> & _)%list_elem_of_fmap. eauto.
  - unfold extract, chunksOf in *. rewrite Hsch, Hchunks.
    by intros ?%elem_of_nil.
  - unfold extract, chunksOf in *. rewrite Hsch, Hchunks.
    by intros ?%elem_of_nil.
Qed.

(** C8, amended: every request sent, for a window or for the reduction, is
    the merge of library defaults, [clientParams] and [llmCallOptions] in
    increasing precedence on every key except three: [model] is always
    [clientParams.model], [messages] is always the single user message, and
    [response_format] is the merged value when truthy and
    [{type: "json_object"}] otherwise. *)
Theorem request_layers sched text opts req :
  req ∈ (extract sched text opts).2 →
  ∃ prompt,
    let llm := default ∅ (llmCallOptions opts) in
    req = requestBodyFor clientParams defaultRequestParams llm prompt
    ∧ req !! "model" = Some (getProp clientParams "model")
    ∧ req !! "messages"
      = Some (JArr [JObj (<[ "role" := JStr "user" ]>
                            (<[ "content" := JStr prompt ]> ∅))])
    ∧ (∀ key, key ≠ "model" → key ≠ "messages" → key ≠ "response_format" →
              req !! key = layered clientParams defaultRequestParams llm key)
    ∧ req !! "response_format"
      = Some (match layered clientParams defaultRequestParams llm "response_format" with
              | Some v =>
                if ToBoolean v then v else JObj {[ "type" := JStr "json_object" ]}
              | None => JObj {[ "type" := JStr "json_object" ]}
              end).
Proof.
  intros [prompt ->]%extract_log. exists prompt. intros llm.
  split; [done|]. apply requestBodyFor_lookup.
Qed.

End extract.


(** * The properties on the scenario of the test *)

(** Options without a schema. *)
Lemma extract_requires_schema_witness :
  extract Test.JSON_parse Test.wordTokenizer Test.buildPromptForChunk
          Test.buildFinalReductionPrompt Test.mockOpenAI Test.clientParams
          Test.defaultRequestParams Test.inOrder Test.text
          {| schema := None; chunkTokens := Some 5%Z; overlapTokens := Some 0%Z;
             concurrency := Some 2%Z; tokenizer := Some Test.wordTokenizer;
             llmCallOptions := None; debug := None |}
  = (Throw (Error "schema is required"), []).
Proof. apply extract_requires_schema. reflexivity. Defined.

(** With the workers completing last first, the results come back in
    window order. *)
Lemma rawChunkResults_sorted_witness :
  let run := Test.run Test.mockOpenAI Test.reversed in
  let rs := rawChunkResults (metadata (Test.resultOf run)) in
  run = (Normal (Test.resultOf run), run.2)
  ∧ ChunkResult.chunkId <$> rs = seq 0 (length rs)
  ∧ Sorted lt (ChunkResult.chunkId <$> rs)
  ∧ length rs = 3.
Proof.
  intros run rs.
  assert (run.1 = Normal (Test.resultOf run)) as Hfst by (vm_compute; reflexivity).
  assert (run = (Normal (Test.resultOf run), run.2)) as Hrun
    by (rewrite <-Hfst; apply surjective_pairing).
  split; [exact Hrun|].
  destruct (rawChunkResults_sorted _ _ _ _ _ _ _ _ _ _ _ _ Hrun)
    as (sch & _ & Hids & Hsorted & _).
  split; [exact Hids|]. split; [exact Hsorted|]. vm_compute. reflexivity.
Defined.



(** A response that is the JSON text [null] is neither a failed call nor an
    unparsable response; the test for own properties throws on it and
    [extract] is rejected, in either completion order. *)
Lemma null_response_rejects :
  (Test.run Test.nullOpenAI Test.inOrder).1 = Throw TypeError
  ∧ (Test.run Test.nullOpenAI Test.reversed).1 = Throw TypeError.
Proof. split; vm_compute; reflexivity. Qed.





(** The first request of the test carries the model and the temperature of
    [clientParams] and the library default [stream: false]. *)
Lemma request_layers_witness :
  ∃ req log prompt,
    (Test.run Test.mockOpenAI Test.inOrder).2 = req :: log
    ∧ req = requestBodyFor Test.clientParams Test.defaultRequestParams ∅ prompt
    ∧ req !! "model" = Some (JStr "mock-model")
    ∧ req !! "temperature" = Some (JNum 0)
    ∧ req !! "stream" = Some (JBool false).
Proof.
  destruct ((Test.run Test.mockOpenAI Test.inOrder).2) as [|req log] eqn:E.
  { apply (f_equal length) in E. vm_compute in E. discriminate E. }
  assert (req ∈ (Test.run Test.mockOpenAI Test.inOrder).2) as Hin
    by (rewrite E; apply elem_of_cons; by left).
  destruct (request_layers Test.JSON_parse Test.wordTokenizer Test.buildPromptForChunk
              Test.buildFinalReductionPrompt Test.mockOpenAI Test.clientParams
              Test.defaultRequestParams Test.inOrder Test.text Test.opts req Hin)
    as (prompt & Hreq & Hmodel & _ & Hother & _).
  exists req, log, prompt. split; [reflexivity|]. split; [exact Hreq|].
  split; [exact Hmodel|]. split.
  - rewrite Hother by done. vm_compute. reflexivity.
  - rewrite Hother by done. vm_compute. reflexivity.
Defined.

(** C8 as stated fails for the model identifier: with [clientParams.model]
    "mock-model" and the per-call override [model: "override-model"], the
    window request and the reduction request both name "mock-model", while
    the override of [temperature] (1.0 over 0) does take effect. *)
Lemma request_model_not_overridden :
  let log :=
    (extract Test.JSON_parse Test.wordTokenizer Test.buildPromptForChunk
             Test.buildFinalReductionPrompt Test.mockOpenAI Test.clientParams
             Test.defaultRequestParams Test.inOrder Test.text Test.overrideOpts).2 in
  let llm := default ∅ (llmCallOptions Test.overrideOpts) in
  llm !! "model" = Some (JStr "override-model")
  ∧ layered Test.clientParams Test.defaultRequestParams llm "model"
    = Some (JStr "override-model")
  ∧ (λ req : JsObject, req !! "model") <$> log
    = [Some (JStr "mock-model"); Some (JStr "mock-model")]
  ∧ (λ req : JsObject, req !! "temperature") <$> log
    = [Some (JNum 4607182418800017408); Some (JNum 4607182418800017408)].
Proof. intros log llm. split_and!; vm_compute; reflexivity. Qed.

(** * More on chunking *)

Lemma string_drop_S k text c s' :
  JsString.drop k text = String c s' → JsString.drop (S k) text = s'.
Proof.
  revert text. induction k as [|k IH]; intros [|b t]; simpl; try done.
  - by intros [= _ ->].
  - apply IH.
Qed.

Lemma indexOf_aux_prefix text tok s k m :
  s = JsString.drop k text →
  JsString.indexOf_aux tok s k = Some m →
  String.prefix tok (JsString.drop m text) = true.
Proof.
  revert k. induction s as [|c s IH]; intros k Hs; cbn [JsString.indexOf_aux].
  - destruct (String.prefix tok EmptyString) eqn:E; [|done].
    intros [= <-]. by rewrite <-Hs.
  - destruct (String.prefix tok (String c s)) eqn:E.
    + intros [= <-]. by rewrite <-Hs.
    + apply IH. symmetry. by apply (string_drop_S _ _ c).
Qed.

Lemma prefix_drop_substring tok text m :
  String.prefix tok (JsString.drop m text) = true →
  substring m (String.length tok) text = tok.
Proof.
  revert text. induction m as [|m IH]; intros text; simpl.
  - apply prefix_correct.
  - destruct text as [|b t]; [|apply IH].
    destruct tok; [done|]. simpl. done.
Qed.

(** What [text.indexOf] finds is an occurrence of the token. *)
Lemma indexOf_occurrence text tok position m :
  JsString.indexOf text tok position = Some m →
  JsString.slice text m (m + String.length tok) = tok.
Proof.
  intros H. pose proof (indexOf_bounds _ _ _ _ H) as [_ Hb].
  unfold JsString.indexOf in H.
  apply (indexOf_aux_prefix text) in H; [|done].
  apply prefix_drop_substring in H.
  unfold JsString.slice.
  replace (m `min` String.length text) with m by lia.
  replace ((m + String.length tok) `min` String.length text - m)
    with (String.length tok) by lia.
  done.
Qed.

Lemma substring_length n m s :
  n + m ≤ String.length s → String.length (substring n m s) = m.
Proof.
  revert n m. induction s as [|c s IH]; intros [|n] [|m]; simpl; try lia.
  - intros H. rewrite IH; lia.
  - intros H. apply IH. lia.
  - intros H. apply IH. lia.
Qed.

Lemma slice_length text a b :
  a ≤ b → b ≤ String.length text →
  String.length (JsString.slice text a b) = b - a.
Proof.
  intros Hab Hb. unfold JsString.slice. rewrite substring_length; lia.
Qed.

(** The spans of tokens that are all found: each spells its token, starts
    at or after the search position, and ends where the search for the
    next token begins. *)
Lemma locateTokens_located text tokens searchIdx :
  tokensLocated text tokens searchIdx = true →
  searchIdx ≤ String.length text →
  Forall2 (λ tok p, JsString.slice text (start p) (end_ p) = tok
                    ∧ end_ p = start p + String.length tok)
          tokens (locateTokens text tokens searchIdx)
  ∧ Forall (λ p, searchIdx ≤ start p ∧ start p ≤ end_ p
                 ∧ end_ p ≤ String.length text)
           (locateTokens text tokens searchIdx)
  ∧ StronglySorted (λ p q, end_ p ≤ start q) (locateTokens text tokens searchIdx).
Proof.
  revert searchIdx. induction tokens as [|tok rest IH]; intros k; simpl.
  { intros _ _. split_and!; constructor. }
  destruct (JsString.indexOf text tok k) as [m|] eqn:E; [|done].
  intros Hloc Hk.
  pose proof (indexOf_bounds _ _ _ _ E) as [Hlo Hhi].
  destruct (IH (m + String.length tok) Hloc Hhi) as (Hspell & Hbound & Hsorted).
  split_and!.
  - constructor; [|done]. simpl. split; [|done]. by eapply indexOf_occurrence.
  - constructor; [simpl; lia|].
    eapply Forall_impl; [exact Hbound|]. simpl. intros p. lia.
  - constructor; [done|].
    eapply Forall_impl; [exact Hbound|]. simpl. intros p. lia.
Qed.

(** The slice of the tokens of a window is a [take] of a [drop]. *)
Lemma window_slice {A} (l : list A) pos chunkTokens :
  (1 ≤ chunkTokens)%Z → pos < length l →
  JsArray.slice l (Z.of_nat pos)
                (Z.min (Z.of_nat pos + chunkTokens) (Z.of_nat (length l)))
  = take (Z.to_nat chunkTokens) (drop pos l).
Proof.
  intros HcT Hpos. unfold JsArray.slice, JsArray.relIndex.
  destruct (Z.ltb_spec (Z.of_nat pos) 0); [lia|].
  destruct (Z.ltb_spec (Z.min (Z.of_nat pos + chunkTokens) (Z.of_nat (length l))) 0);
    [lia|].
  replace (Z.to_nat (Z.min (Z.of_nat pos) (Z.of_nat (length l)))) with pos by lia.
  destruct (decide (pos + Z.to_nat chunkTokens ≤ length l)) as [Hfull|Hend].
  - f_equal. lia.
  - rewrite !take_ge; [done|rewrite length_drop; lia..].
Qed.

Lemma windowAt_chars text tokens tcp chunkTokens pos id c :
  (1 ≤ chunkTokens)%Z → pos < length tokens →
  windowAt text tokens tcp chunkTokens pos id = Some c →
  ∃ ps pe,
    tcp !! pos = Some ps
    ∧ tcp !! ((pos + Z.to_nat chunkTokens) `min` length tokens - 1) = Some pe
    ∧ Chunk.startChar c = start ps
    ∧ Chunk.endChar c = end_ pe
    ∧ Chunk.text c = JsString.slice text (start ps) (end_ pe)
    ∧ Chunk.tokens c = take (Z.to_nat chunkTokens) (drop pos tokens).
Proof.
  intros HcT Hpos. unfold windowAt, JsArray.get. intros H.
  destruct (tcp !! pos) as [ps|] eqn:Eps; [|done]. simpl in H.
  destruct (Z.ltb_spec (Z.min (Z.of_nat pos + chunkTokens) (Z.of_nat (length tokens)) - 1) 0);
    [done|].
  replace (Z.to_nat (Z.min (Z.of_nat pos + chunkTokens) (Z.of_nat (length tokens)) - 1))
    with ((pos + Z.to_nat chunkTokens) `min` length tokens - 1) in H by lia.
  destruct (tcp !! (_ `min` _ - 1)) as [pe|] eqn:Epe; [|done]. simpl in H.
  injection H as <-. exists ps, pe. simpl.
  split_and!; try done. by apply window_slice.
Qed.

(** The windows of a returning [buildChunks]. *)
Lemma buildChunks_Normal_windows text chunkTokens overlapTokens tokenizer chunks :
  buildChunks text chunkTokens overlapTokens tokenizer = Normal chunks →
  let tokens := tokenizer text in
  let s := stride chunkTokens overlapTokens in
  (chunks = [] ∨ (1 ≤ chunkTokens)%Z)
  ∧ 1 ≤ s
  ∧ (∀ k c, chunks !! k = Some c →
            k * s < length tokens
            ∧ windowAt text tokens (locateTokens text tokens 0) chunkTokens (k * s) k
              = Some c)
  ∧ (∀ k, k * s < length tokens → k < length chunks).
Proof.
  intros Hrun tokens s.
  pose proof (buildChunks_Normal_domain _ _ _ _ _ Hrun) as Hdom.
  destruct (buildChunks_spec text chunkTokens overlapTokens tokenizer Hdom)
    as (chunks' & Hrun' & Hwin & Hcnt).
  unfold buildChunks in Hrun. rewrite Hrun' in Hrun by done. injection Hrun as ->.
  split_and!; [|unfold s, stride; lia|done|done].
  destruct Hdom as [Hnil|HcT]; [left|by right].
  destruct chunks as [|c chunks]; [done|].
  destruct (Hwin 0 c eq_refl) as [Hlt _]. rewrite Hnil in Hlt. simpl in Hlt. lia.
Qed.

(** The tokens and the character range of window [k]. *)
Lemma buildChunks_Normal_window text chunkTokens overlapTokens tokenizer chunks k c :
  buildChunks text chunkTokens overlapTokens tokenizer = Normal chunks →
  chunks !! k = Some c →
  let tokens := tokenizer text in
  let tcp := locateTokens text tokens 0 in
  let s := stride chunkTokens overlapTokens in
  (1 ≤ chunkTokens)%Z ∧ 1 ≤ s ∧ k * s < length tokens
  ∧ Chunk.tokens c = take (Z.to_nat chunkTokens) (drop (k * s) tokens)
  ∧ ∃ ps pe,
      tcp !! (k * s) = Some ps
      ∧ tcp !! ((k * s + Z.to_nat chunkTokens) `min` length tokens - 1) = Some pe
      ∧ Chunk.startChar c = start ps
      ∧ Chunk.endChar c = end_ pe
      ∧ Chunk.text c = JsString.slice text (start ps) (end_ pe).
Proof.
  intros Hrun Hk tokens tcp s.
  destruct (buildChunks_Normal_windows _ _ _ _ _ Hrun) as (Hdom & Hs & Hwin & _).
  assert (1 ≤ chunkTokens)%Z as HcT.
  { destruct Hdom as [->|]; [done|done]. }
  destruct (Hwin k c Hk) as [Hlt Hw].
  apply windowAt_chars in Hw as (ps & pe & ? & ? & ? & ? & ? & ?); [|done..].
  split_and!; try done. exists ps, pe. done.
Qed.

Lemma concat_windows {A} (l : list A) s (ws : list (list A)) :
  (∀ k w, ws !! k = Some w → w = take s (drop (k * s) l)) →
  length l ≤ length ws * s →
  concat ws = l.
Proof.
  revert l. induction ws as [|w ws IH]; intros l Hw Hlen.
  - simpl in Hlen. destruct l; [done|simpl in Hlen; lia].
  - simpl. rewrite (Hw 0 w eq_refl). simpl.
    rewrite (IH (drop s l)).
    + apply take_drop.
    + intros k w' Hk. rewrite (Hw (S k) w' Hk), drop_drop. f_equal; f_equal; lia.
    + rewrite length_drop. simpl in Hlen. lia.
Qed.

Lemma StronglySorted_lookup_lt {A} (R : relation A) l i j x y :
  StronglySorted R l → i < j → l !! i = Some x → l !! j = Some y → R x y.
Proof.
  intros Hl. revert i j. induction Hl as [|z l Hl IH Hz]; intros i j Hij Hi Hj.
  - done.
  - destruct j as [|j]; [lia|]. simpl in Hj. destruct i as [|i]; simpl in Hi.
    + injection Hi as ->. rewrite Forall_forall in Hz. apply Hz.
      by eapply list_elem_of_lookup_2.
    + apply (IH i j); [lia|done..].
Qed.

(** The spans of located tokens come in the order of the tokens. *)
Lemma locateTokens_monotone text tokens i j p q :
  tokensLocated text tokens 0 = true →
  locateTokens text tokens 0 !! i = Some p →
  locateTokens text tokens 0 !! j = Some q →
  i ≤ j →
  start p ≤ end_ p ∧ end_ q ≤ String.length text
  ∧ start p ≤ start q ∧ end_ p ≤ end_ q
  ∧ (i < j → end_ p ≤ start q).
Proof.
  intros Hloc Hi Hj Hij.
  destruct (locateTokens_located text tokens 0 Hloc) as (_ & Hbound & Hsorted); [lia|].
  rewrite Forall_forall in Hbound.
  destruct (Hbound p) as (_ & Hp & _); [by eapply list_elem_of_lookup_2|].
  destruct (Hbound q) as (_ & Hq & Hq'); [by eapply list_elem_of_lookup_2|].
  destruct (decide (i = j)) as [->|Hne].
  - assert (p = q) as -> by congruence. split_and!; try done; lia.
  - pose proof (StronglySorted_lookup_lt _ _ i j p q Hsorted) as Hlt.
    assert (end_ p ≤ start q) by (apply Hlt; [lia|done..]).
    split_and!; try done; lia.
Qed.

(** X1: window [k] of a returning [buildChunks] holds the tokens from
    position [k * step] on, at most [chunkTokens] of them and at least one;
    it holds fewer than [chunkTokens] only when it reaches the last token. *)
Theorem buildChunks_window_sizes text chunkTokens overlapTokens tokenizer chunks k c :
  buildChunks text chunkTokens overlapTokens tokenizer = Normal chunks →
  chunks !! k = Some c →
  let tokens := tokenizer text in
  let s := stride chunkTokens overlapTokens in
  Chunk.tokens c = take (Z.to_nat chunkTokens) (drop (k * s) tokens)
  ∧ 1 ≤ length (Chunk.tokens c)
  ∧ length (Chunk.tokens c) = Z.to_nat chunkTokens `min` (length tokens - k * s).
Proof.
  intros Hrun Hk tokens s.
  destruct (buildChunks_Normal_window _ _ _ _ _ _ _ Hrun Hk)
    as (HcT & Hs & Hlt & Htok & _).
  fold tokens s in Hlt, Htok. rewrite Htok, length_take, length_drop.
  split_and!; [done|lia|lia].
Qed.

(** The third window of the sample text, for windows of three tokens that
    overlap in one, holds the last token alone. *)
Lemma buildChunks_window_sizes_witness :
  let c := Sample.window 3 1 2 in
  Chunk.tokens c = take 3 (drop (2 * 2) (Test.wordTokenizer Sample.text))
  ∧ 1 ≤ length (Chunk.tokens c)
  ∧ length (Chunk.tokens c) = 3 `min` (5 - 2 * 2).
Proof.
  apply (buildChunks_window_sizes Sample.text 3 1 Test.wordTokenizer (Sample.chunks 3 1) 2);
    reflexivity.
Defined.

(** X2: with an overlap of zero the windows partition the tokens: their token
    lists, concatenated in window order, give the tokens of the text back. *)
Theorem buildChunks_no_overlap_partition text chunkTokens tokenizer chunks :
  buildChunks text chunkTokens 0 tokenizer = Normal chunks →
  concat (Chunk.tokens <$> chunks) = tokenizer text.
Proof.
  intros Hrun.
  destruct (buildChunks_Normal_windows _ _ _ _ _ Hrun) as (Hdom & Hs & Hwin & Hcnt).
  assert (length (tokenizer text) ≤ length chunks * stride chunkTokens 0) as Hcover.
  { destruct (decide (length chunks * stride chunkTokens 0 < length (tokenizer text)))
      as [Hlt|]; [|lia]. apply Hcnt in Hlt. lia. }
  apply (concat_windows _ (stride chunkTokens 0)).
  - intros k w. rewrite list_lookup_fmap.
    destruct (chunks !! k) as [c|] eqn:Hk; [|done]. intros [= <-].
    destruct (buildChunks_Normal_window _ _ _ _ _ _ _ Hrun Hk)
      as (HcT & _ & _ & Htok & _).
    rewrite Htok. f_equal. unfold stride. lia.
  - by rewrite length_fmap.
Qed.

(** Windows of two tokens without overlap over the five words of the sample
    text. *)
Lemma buildChunks_no_overlap_partition_witness :
  concat (Chunk.tokens <$> Sample.chunks 2 0) = ["a"; "b"; "c"; "d"; "e"].
Proof.
  apply (buildChunks_no_overlap_partition Sample.text 2 Test.wordTokenizer (Sample.chunks 2 0)).
  reflexivity.
Defined.

(** X3: with a non-negative overlap no token is left out: token [j] is in
    window [j / step], at offset [j mod step]. *)
Theorem buildChunks_covers_tokens text chunkTokens overlapTokens tokenizer chunks j tok :
  (0 ≤ overlapTokens)%Z →
  buildChunks text chunkTokens overlapTokens tokenizer = Normal chunks →
  tokenizer text !! j = Some tok →
  let s := stride chunkTokens overlapTokens in
  ∃ c, chunks !! (j / s) = Some c ∧ Chunk.tokens c !! (j `mod` s) = Some tok.
Proof.
  intros HoT Hrun Hj s.
  destruct (buildChunks_Normal_windows _ _ _ _ _ Hrun) as (_ & Hs & _ & Hcnt).
  fold s in Hs, Hcnt.
  pose proof (lookup_lt_Some _ _ _ Hj) as Hlt.
  pose proof (Nat.div_mod_eq j s) as Hdiv.
  pose proof (Nat.mod_upper_bound j s) as Hmod.
  destruct (lookup_lt_is_Some_2 chunks (j / s)) as [c Hc]; [apply Hcnt; nia|].
  exists c. split; [done|].
  destruct (buildChunks_Normal_window _ _ _ _ _ _ _ Hrun Hc)
    as (HcT & _ & _ & Htok & _).
  fold s in Htok. rewrite Htok.
  assert (s ≤ Z.to_nat chunkTokens) by (unfold s, stride; lia).
  rewrite lookup_take_lt by lia. rewrite lookup_drop, <-Hj. f_equal. nia.
Qed.

(** The fourth word of the sample text is the second token of the second
    window, for windows of three tokens that overlap in one. *)
Lemma buildChunks_covers_tokens_witness :
  ∃ c, Sample.chunks 3 1 !! (3 / 2) = Some c
       ∧ Chunk.tokens c !! (3 `mod` 2) = Some "d".
Proof.
  apply (buildChunks_covers_tokens Sample.text 3 1 Test.wordTokenizer (Sample.chunks 3 1)
           3 "d"); [lia|reflexivity|reflexivity].
Defined.

(** X4: two consecutive windows share the tokens that the first one holds past
    the step: they are the first tokens of the second one; when the first
    window is full and the overlap is between zero and the window size, they
    are exactly [overlapTokens] tokens. *)
Theorem buildChunks_shared_tokens text chunkTokens overlapTokens tokenizer chunks k c c' :
  buildChunks text chunkTokens overlapTokens tokenizer = Normal chunks →
  chunks !! k = Some c →
  chunks !! S k = Some c' →
  let s := stride chunkTokens overlapTokens in
  drop s (Chunk.tokens c) = take (length (Chunk.tokens c) - s) (Chunk.tokens c')
  ∧ ((0 ≤ overlapTokens < chunkTokens)%Z →
     length (Chunk.tokens c) = Z.to_nat chunkTokens →
     length (drop s (Chunk.tokens c)) = Z.to_nat overlapTokens).
Proof.
  intros Hrun Hk Hk' s.
  destruct (buildChunks_Normal_window _ _ _ _ _ _ _ Hrun Hk)
    as (HcT & Hs & Hlt & Htok & _).
  destruct (buildChunks_Normal_window _ _ _ _ _ _ _ Hrun Hk')
    as (_ & _ & Hlt' & Htok' & _).
  fold s in Hs, Hlt, Htok, Hlt', Htok'.
  set (tokens := tokenizer text) in *. set (n := Z.to_nat chunkTokens) in *.
  split.
  - rewrite Htok at 1. rewrite skipn_firstn_comm, drop_drop.
    rewrite Htok', take_take.
    replace (k * s + s) with (S k * s) by lia.
    rewrite Htok, length_take, length_drop.
    destruct (decide (n ≤ length tokens - k * s)) as [Hfull|Hend].
    + f_equal. lia.
    + rewrite !take_ge; [done|rewrite length_drop; lia..].
  - intros HoT Hfull. rewrite length_drop, Hfull. unfold s, stride, n. lia.
Qed.

(** The first two windows of three tokens that overlap in one. *)
Lemma buildChunks_shared_tokens_witness :
  let c := Sample.window 3 1 0 in
  let c' := Sample.window 3 1 1 in
  drop 2 (Chunk.tokens c) = take (length (Chunk.tokens c) - 2) (Chunk.tokens c')
  ∧ ((0 ≤ 1 < 3)%Z →
     length (Chunk.tokens c) = 3 →
     length (drop 2 (Chunk.tokens c)) = 1).
Proof.
  apply (buildChunks_shared_tokens Sample.text 3 1 Test.wordTokenizer (Sample.chunks 3 1) 0);
    reflexivity.
Defined.

Lemma buildChunks_loop_bad_window fuel text tokens tcp chunkTokens overlapTokens
    i chunkId chunks :
  (Z.of_nat i + chunkTokens ≤ 0)%Z → i < length tokens →
  buildChunks_loop (S fuel) text tokens tcp chunkTokens overlapTokens i chunkId chunks
  = Throw TypeError.
Proof.
  intros HcT Hi. cbn [buildChunks_loop]. case_decide; [|lia].
  destruct (tcp !! i); [|done]. unfold JsArray.get.
  match goal with |- context [(?z <? 0)%Z] =>
    destruct (Z.ltb_spec z 0); [done|lia] end.
Qed.

(** X5: for a text with at least one token and a window size of zero or less,
    [buildChunks] throws a [TypeError] (it reads the [end] of
    [tokenCharPositions[endToken - 1]], which is [undefined]) whatever the
    overlap. *)
Theorem buildChunks_bad_window_throws text chunkTokens overlapTokens tokenizer :
  tokenizer text ≠ [] → (chunkTokens ≤ 0)%Z →
  buildChunks text chunkTokens overlapTokens tokenizer = Throw TypeError.
Proof.
  intros Hne HcT. unfold buildChunks, buildChunks_fuel.
  destruct (tokenizer text) as [|tok rest] eqn:E; [done|].
  case_decide; [done|]. apply buildChunks_loop_bad_window; simpl; lia.
Qed.

(** A negative window size. *)
Lemma buildChunks_bad_window_throws_witness :
  buildChunks Sample.text (-1) 0 Test.wordTokenizer = Throw TypeError.
Proof.
  apply (buildChunks_bad_window_throws Sample.text (-1) 0 Test.wordTokenizer); [|lia].
  vm_compute. discriminate.
Defined.

Lemma Forall2_lookup_both {A B} (P : A → B → Prop) l k i x y :
  Forall2 P l k → l !! i = Some x → k !! i = Some y → P x y.
Proof. intros H Hx Hy. by eapply Forall2_lookup_lr. Qed.

(** X6: when the forward search finds every token, a window starts before it
    ends and ends within the text, its text has the length of its character
    range, the range starts with the first token of the window and ends with
    the last one. *)
Theorem buildChunks_located_range text chunkTokens overlapTokens tokenizer chunks k c :
  buildChunks text chunkTokens overlapTokens tokenizer = Normal chunks →
  tokensLocated text (tokenizer text) 0 = true →
  chunks !! k = Some c →
  Chunk.startChar c ≤ Chunk.endChar c
  ∧ Chunk.endChar c ≤ String.length text
  ∧ String.length (Chunk.text c) = Chunk.endChar c - Chunk.startChar c
  ∧ (∀ tok, head (Chunk.tokens c) = Some tok →
            JsString.slice text (Chunk.startChar c)
                           (Chunk.startChar c + String.length tok) = tok)
  ∧ (∀ tok, last (Chunk.tokens c) = Some tok →
            String.length tok ≤ Chunk.endChar c
            ∧ JsString.slice text (Chunk.endChar c - String.length tok)
                             (Chunk.endChar c) = tok).
Proof.
  intros Hrun Hloc Hk.
  destruct (buildChunks_Normal_window _ _ _ _ _ _ _ Hrun Hk)
    as (HcT & Hs & Hlt & Htok & ps & pe & Hps & Hpe & Hstart & Hend & Htext).
  set (tokens := tokenizer text) in *.
  set (s := stride chunkTokens overlapTokens) in *.
  set (n := Z.to_nat chunkTokens) in *.
  destruct (locateTokens_located text tokens 0 Hloc) as (Hspell & _ & _); [lia|].
  destruct (locateTokens_monotone text tokens _ _ ps pe Hloc Hps Hpe)
    as (Hp & Hq & Hpq & Hpq' & _); [lia|].
  assert (start pe ≤ end_ pe) as Hpe'.
  { by destruct (locateTokens_monotone text tokens _ _ pe pe Hloc Hpe Hpe). }
  rewrite Hstart, Hend, Htext.
  split_and!; [lia|done|apply slice_length; lia|..].
  - intros tok. rewrite Htok, head_lookup, lookup_take_lt, lookup_drop by lia.
    rewrite Nat.add_0_r. intros Htk.
    destruct (Forall2_lookup_both _ _ _ _ _ _ Hspell Htk Hps) as [Hsl He].
    by rewrite <-He.
  - intros tok. rewrite Htok, last_lookup, length_take, length_drop.
    rewrite lookup_take_lt, lookup_drop by lia.
    replace (k * s + pred (n `min` (length tokens - k * s)))
      with ((k * s + n) `min` length tokens - 1) by lia.
    intros Htk.
    destruct (Forall2_lookup_both _ _ _ _ _ _ Hspell Htk Hpe) as [Hsl He].
    split; [lia|]. by replace (end_ pe - String.length tok) with (start pe) by lia.
Qed.

(** The second window of the sample text, for windows of three tokens that
    overlap in one. *)
Lemma buildChunks_located_range_witness :
  let c := Sample.window 3 1 1 in
  Chunk.startChar c ≤ Chunk.endChar c
  ∧ Chunk.endChar c ≤ String.length Sample.text
  ∧ String.length (Chunk.text c) = Chunk.endChar c - Chunk.startChar c
  ∧ (∀ tok, head (Chunk.tokens c) = Some tok →
            JsString.slice Sample.text (Chunk.startChar c)
                           (Chunk.startChar c + String.length tok) = tok)
  ∧ (∀ tok, last (Chunk.tokens c) = Some tok →
            String.length tok ≤ Chunk.endChar c
            ∧ JsString.slice Sample.text (Chunk.endChar c - String.length tok)
                             (Chunk.endChar c) = tok).
Proof.
  apply (buildChunks_located_range Sample.text 3 1 Test.wordTokenizer (Sample.chunks 3 1) 1);
    reflexivity.
Defined.

(** X7: when the forward search finds every token, consecutive windows start
    and end in text order; with an overlap of zero or less the second starts
    at or after the end of the first, and with an overlap of at least one
    token (and windows of at least two) it starts at or before that end. *)
Theorem buildChunks_located_consecutive text chunkTokens overlapTokens tokenizer chunks
    k c c' :
  buildChunks text chunkTokens overlapTokens tokenizer = Normal chunks →
  tokensLocated text (tokenizer text) 0 = true →
  chunks !! k = Some c →
  chunks !! S k = Some c' →
  Chunk.startChar c ≤ Chunk.startChar c'
  ∧ Chunk.endChar c ≤ Chunk.endChar c'
  ∧ ((overlapTokens ≤ 0)%Z → Chunk.endChar c ≤ Chunk.startChar c')
  ∧ ((1 ≤ overlapTokens)%Z → (2 ≤ chunkTokens)%Z →
     Chunk.startChar c' ≤ Chunk.endChar c).
Proof.
  intros Hrun Hloc Hk Hk'.
  destruct (buildChunks_Normal_window _ _ _ _ _ _ _ Hrun Hk)
    as (HcT & Hs & Hlt & _ & ps & pe & Hps & Hpe & -> & -> & _).
  destruct (buildChunks_Normal_window _ _ _ _ _ _ _ Hrun Hk')
    as (_ & _ & Hlt' & _ & ps' & pe' & Hps' & Hpe' & -> & -> & _).
  set (tokens := tokenizer text) in *.
  set (s := stride chunkTokens overlapTokens) in *.
  set (n := Z.to_nat chunkTokens) in *.
  assert (1 ≤ n) by lia.
  split_and!.
  - by destruct (locateTokens_monotone text tokens _ _ ps ps' Hloc Hps Hps')
      as (_ & _ & ? & _); [lia|].
  - by destruct (locateTokens_monotone text tokens _ _ pe pe' Hloc Hpe Hpe')
      as (_ & _ & _ & ? & _); [lia|].
  - intros HoT.
    assert (n ≤ s) by (unfold s, stride, n; lia).
    destruct (locateTokens_monotone text tokens _ _ pe ps' Hloc Hpe Hps')
      as (_ & _ & _ & _ & Hdisj); [lia|]. apply Hdisj. lia.
  - intros HoT HcT2.
    assert (s < n) by (unfold s, stride, n; lia).
    destruct (locateTokens_monotone text tokens _ _ ps' pe Hloc Hps' Hpe)
      as (Hp & _ & _ & Hle & _); [lia|]. lia.
Qed.

(** The first two windows of three tokens that overlap in one. *)
Lemma buildChunks_located_consecutive_witness :
  let c := Sample.window 3 1 0 in
  let c' := Sample.window 3 1 1 in
  Chunk.startChar c ≤ Chunk.startChar c'
  ∧ Chunk.endChar c ≤ Chunk.endChar c'
  ∧ ((1 ≤ 0)%Z → Chunk.endChar c ≤ Chunk.startChar c')
  ∧ ((1 ≤ 1)%Z → (2 ≤ 3)%Z → Chunk.startChar c' ≤ Chunk.endChar c).
Proof.
  apply (buildChunks_located_consecutive Sample.text 3 1 Test.wordTokenizer
           (Sample.chunks 3 1) 0); reflexivity.
Defined.

(** X8: a returning [buildChunks] returns the ceiling of (number of tokens /
    step) windows, where step is [max(1, chunkTokens - overlapTokens)]. *)
Theorem buildChunks_window_count text chunkTokens overlapTokens tokenizer chunks :
  buildChunks text chunkTokens overlapTokens tokenizer = Normal chunks →
  let n := length (tokenizer text) in
  let s := stride chunkTokens overlapTokens in
  length chunks = (n + s - 1) / s.
Proof.
  intros Hrun n s.
  destruct (buildChunks_Normal_windows _ _ _ _ _ Hrun) as (_ & Hs & Hwin & Hcnt).
  fold n s in Hs, Hwin, Hcnt.
  assert (n ≤ length chunks * s) as Hhi.
  { destruct (decide (length chunks * s < n)) as [Hlt|]; [|lia].
    apply Hcnt in Hlt. lia. }
  destruct (decide (length chunks = 0)) as [Hz|Hnz].
  - rewrite Hz in *. symmetry. apply Nat.div_small. lia.
  - destruct (lookup_lt_is_Some_2 chunks (length chunks - 1)) as [c Hc]; [lia|].
    destruct (Hwin _ c Hc) as [Hlo _].
    apply (Nat.div_unique _ _ _ (n + s - 1 - s * length chunks)); nia.
Qed.

(** Five tokens and a step of two give three windows. *)
Lemma buildChunks_window_count_witness :
  length (Sample.chunks 3 1) = (5 + 2 - 1) / 2.
Proof.
  apply (buildChunks_window_count Sample.text 3 1 Test.wordTokenizer (Sample.chunks 3 1)).
  reflexivity.
Defined.

(** X9: with a negative overlap the step is larger than the window, and the
    token just after the first window, when there is one, belongs to no
    window. *)
Theorem buildChunks_negative_overlap_skips text chunkTokens overlapTokens tokenizer
    chunks tok :
  (overlapTokens < 0)%Z →
  buildChunks text chunkTokens overlapTokens tokenizer = Normal chunks →
  tokenizer text !! Z.to_nat chunkTokens = Some tok →
  let s := stride chunkTokens overlapTokens in
  ∀ k c, chunks !! k = Some c →
         ¬ (k * s ≤ Z.to_nat chunkTokens < k * s + length (Chunk.tokens c)).
Proof.
  intros HoT Hrun Htok s k c Hk.
  destruct (buildChunks_Normal_window _ _ _ _ _ _ _ Hrun Hk)
    as (HcT & _ & _ & Hc & _).
  fold s in Hc. rewrite Hc, length_take, length_drop.
  assert (Z.to_nat chunkTokens < s) by (unfold s, stride; lia).
  destruct k as [|k]; nia.
Qed.

(** Windows of two tokens every three tokens skip the third word. *)
Lemma buildChunks_negative_overlap_skips_witness :
  Test.wordTokenizer Sample.text !! 2 = Some "c"
  ∧ ∀ k c, Sample.chunks 2 (-1) !! k = Some c →
           ¬ (k * 3 ≤ 2 < k * 3 + length (Chunk.tokens c)).
Proof.
  split; [reflexivity|].
  apply (buildChunks_negative_overlap_skips Sample.text 2 (-1) Test.wordTokenizer
           (Sample.chunks 2 (-1)) "c"); [lia|reflexivity|reflexivity].
Defined.

(** X10: when the forward search finds every token, the span recorded for a
    token spells the token in the text, and the spans come in the order of
    the tokens without overlapping: each ends at or before the start of every
    later one. *)
Theorem located_tokens_spelled_in_order text tokens :
  tokensLocated text tokens 0 = true →
  let tcp := locateTokens text tokens 0 in
  Forall2 (λ tok p, JsString.slice text (start p) (end_ p) = tok) tokens tcp
  ∧ ∀ i j p q, i < j → tcp !! i = Some p → tcp !! j = Some q → end_ p ≤ start q.
Proof.
  intros Hloc tcp.
  destruct (locateTokens_located text tokens 0 Hloc) as (Hspell & _ & Hsorted); [lia|].
  split.
  - eapply Forall2_impl; [exact Hspell|]. by intros tok p [? _].
  - intros i j p q Hij Hi Hj.
    exact (StronglySorted_lookup_lt (λ p q, end_ p ≤ start q) tcp i j p q
             Hsorted Hij Hi Hj).
Qed.

(** The five words of the sample text. *)
Lemma located_tokens_spelled_in_order_witness :
  let tokens := ["a"; "b"; "c"; "d"; "e"] in
  let tcp := locateTokens Sample.text tokens 0 in
  Forall2 (λ tok p, JsString.slice Sample.text (start p) (end_ p) = tok) tokens tcp
  ∧ ∀ i j p q, i < j → tcp !! i = Some p → tcp !! j = Some q → end_ p ≤ start q.
Proof.
  apply (located_tokens_spelled_in_order Sample.text ["a"; "b"; "c"; "d"; "e"]).
  reflexivity.
Defined.

(** * More on normalization *)

Lemma normalizeValue_defined field v : normalizeValue field v ≠ JUndefined.
Proof. unfold normalizeValue. repeat case_match; congruence. Qed.

Lemma matchesEnum_undefined allowed : matchesEnum allowed JUndefined = false.
Proof.
  unfold matchesEnum. induction allowed as [|a allowed IH]; [done|].
  simpl. rewrite IH. by destruct a.
Qed.

(** Under a field with an enumeration a value is kept only if it is a
    member. *)
Lemma normalizeValue_enum field allowed v :
  Schema.enum field = Some allowed →
  normalizeValue field v = JNull
  ∨ (normalizeValue field v = v ∧ matchesEnum allowed v = true).
Proof.
  intros He. destruct (matchesEnum allowed v) eqn:Hm.
  - right. split; [|done]. unfold normalizeValue. rewrite He, Hm.
    rewrite andb_false_r.
    destruct v as [| |b|x|str|entries|o];
      try (by destruct field).
    + by rewrite matchesEnum_undefined in Hm.
    + by rewrite matchesEnum_array in Hm.
  - left. by eapply normalizeValue_not_member.
Qed.

Lemma filter_idemp {A} (f : A → bool) l :
  List.filter f (List.filter f l) = List.filter f l.
Proof.
  induction l as [|x l IH]; simpl; [done|].
  destruct (f x) eqn:E; simpl; [|done]. by rewrite E, IH.
Qed.

Lemma normalizeValue_idemp field v :
  normalizeValue field (normalizeValue field v) = normalizeValue field v.
Proof.
  destruct (Schema.enum field) as [allowed|] eqn:He.
  - destruct (normalizeValue_enum field allowed v He) as [H|[H _]]; rewrite !H; [|done].
    apply normalizeValue_null.
  - unfold normalizeValue. rewrite He.
    destruct field as [d e|d e|d e|d e items|d e ps r];
      destruct v as [| |b|x|str|entries|o]; try done.
    cbn [Schema.enum] in *. subst e.
    destruct (Schema.enum items) as [itemEnum|] eqn:Hi; [|done].
    destruct (_ && _ && _) eqn:Hc; [|by rewrite ?Hi, ?Hc].
    by rewrite ?Hi, ?Hc, filter_idemp.
Qed.

(** The normalized object, key by key, whenever [normalize] returns. *)
Lemma normalize_Normal_lookup schema parsed normalized k :
  normalize schema parsed = Normal normalized →
  normalized !! k
  = (λ field, normalizeValue field (fieldValue parsed k)) <$> properties schema !! k.
Proof.
  intros Hrun. destruct (nullish parsed) eqn:Hp.
  - destruct (decide (properties schema = ∅)) as [He|He].
    + rewrite normalize_no_fields in Hrun by done. injection Hrun as <-.
      by rewrite He, !lookup_empty.
    + by rewrite normalize_Throw in Hrun.
  - destruct (normalize_Normal schema parsed Hp) as (normalized' & Hrun' & Hlook).
    rewrite Hrun' in Hrun. injection Hrun as <-. apply Hlook.
Qed.

Lemma fieldValue_own parsed k v :
  fieldValue parsed k = v → v ≠ JNull → ownProperty parsed k = Normal (Some v).
Proof.
  unfold fieldValue. destruct (ownProperty parsed k) as [[w|]|e|]; try congruence.
Qed.

(** X11: whenever the normalization of a parsed response returns, none of the
    values of the normalized object is [undefined], and for a schema that
    declares no field named [__proto__] the normalized object has exactly the
    keys of the schema. *)
Theorem normalize_keys_of_schema schema parsed normalized :
  normalize schema parsed = Normal normalized →
  (properties schema !! "__proto__" = None →
   dom normalized = dom (properties schema))
  ∧ ∀ k v, normalized !! k = Some v → v ≠ JUndefined.
Proof.
  intros Hrun. split.
  - intros _. apply set_eq. intros k.
    rewrite !elem_of_dom, (normalize_Normal_lookup _ _ _ k Hrun).
    by rewrite fmap_is_Some.
  - intros k v. rewrite (normalize_Normal_lookup _ _ _ k Hrun).
    destruct (properties schema !! k) as [field|]; [|done]. simpl.
    intros [= <-]. apply normalizeValue_defined.
Qed.

(** A response with a numeric [issue] and no [next_moves], against the
    schema of the test, which has no field named [__proto__]. *)
Lemma normalize_keys_of_schema_witness :
  let normalized := Sample.normalized Test.issueSchema Sample.numericIssue in
  dom normalized = dom (properties Test.issueSchema)
  ∧ ∀ k v, normalized !! k = Some v → v ≠ JUndefined.
Proof.
  destruct (normalize_keys_of_schema Test.issueSchema Sample.numericIssue
              (Sample.normalized Test.issueSchema Sample.numericIssue))
    as [Hkeys Hdefined]; [vm_compute; reflexivity|].
  split; [|exact Hdefined]. apply Hkeys. vm_compute. reflexivity.
Defined.



Lemma normalizeValue_items d e items itemEnum v entries :
  Schema.enum items = Some itemEnum → itemEnum ≠ [] →
  Schema.type items ≠ TObject → Schema.type items ≠ TArray →
  normalizeValue (ArraySchemaNode d e items) v = JArr entries →
  ∃ orig, v = JArr orig ∧ entries = List.filter (matchesEnum itemEnum) orig.
Proof.
  intros Hi Hne Ho Ha.
  destruct e as [allowed|].
  - destruct (normalizeValue_enum (ArraySchemaNode d (Some allowed) items) allowed v eq_refl)
      as [->|[-> Hm]]; [done|].
    intros ->. by rewrite matchesEnum_array in Hm.
  - destruct v as [| |b|x|str|orig|o]; try done.
    rewrite (normalizeValue_array_items d items itemEnum orig) by done.
    destruct itemEnum; [done|]. simpl. intros [= <-]. eauto.
Qed.

(** X13: under an array field whose items declare a non-empty enumeration (and
    are neither objects nor arrays), a normalized value that is an array holds
    members of the item enumeration only: it is the array of the response,
    filtered, in the order of the response. *)
Theorem normalize_item_enum_conformance schema parsed normalized k d e items itemEnum
    entries :
  normalize schema parsed = Normal normalized →
  properties schema !! k = Some (ArraySchemaNode d e items) →
  Schema.enum items = Some itemEnum → itemEnum ≠ [] →
  Schema.type items ≠ TObject → Schema.type items ≠ TArray →
  normalized !! k = Some (JArr entries) →
  Forall (λ entry, matchesEnum itemEnum entry = true) entries
  ∧ ∃ orig, ownProperty parsed k = Normal (Some (JArr orig))
            ∧ entries = List.filter (matchesEnum itemEnum) orig.
Proof.
  intros Hrun Hk Hi Hne Ho Ha.
  rewrite (normalize_Normal_lookup _ _ _ k Hrun), Hk. simpl. intros [= Hv].
  apply (normalizeValue_items d e items itemEnum) in Hv as (orig & Hv & ->); [|done..].
  split.
  - apply Forall_forall. intros x Hx%list_elem_of_In. by apply filter_In in Hx as [_ Hx].
  - exists orig. split; [|done]. by apply fieldValue_own.
Qed.

(** The field [labels], whose items are one of two strings. *)
Lemma normalize_item_enum_conformance_witness :
  Forall (λ entry, matchesEnum [EnumStr "a"; EnumStr "b"] entry = true)
         [JStr "a"; JStr "b"]
  ∧ ∃ orig, ownProperty Test.tagResponse "labels" = Normal (Some (JArr orig))
            ∧ [JStr "a"; JStr "b"]
              = List.filter (matchesEnum [EnumStr "a"; EnumStr "b"]) orig.
Proof.
  apply (normalize_item_enum_conformance Test.tagSchema Test.tagResponse
           (Sample.normalized Test.tagSchema Test.tagResponse) "labels" None None
           (StringSchemaNode None (Some [EnumStr "a"; EnumStr "b"]))).
  - vm_compute. reflexivity.
  - vm_compute. reflexivity.
  - reflexivity.
  - discriminate.
  - discriminate.
  - discriminate.
  - vm_compute. reflexivity.
Defined.

(** X14: normalization is idempotent: normalizing a normalized object against
    the same schema returns the same object. *)
Theorem normalize_idempotent schema parsed normalized :
  normalize schema parsed = Normal normalized →
  normalize schema (JObj normalized) = Normal normalized.
Proof.
  intros Hrun.
  destruct (normalize_Normal schema (JObj normalized) eq_refl) as (again & -> & Hlook).
  f_equal. apply map_eq. intros k.
  rewrite Hlook, (normalize_Normal_lookup _ _ _ k Hrun).
  destruct (properties schema !! k) as [field|] eqn:Hk; simpl; [|done].
  f_equal. unfold fieldValue at 1. simpl.
  rewrite (normalize_Normal_lookup _ _ _ k Hrun), Hk. simpl.
  apply normalizeValue_idemp.
Qed.

(** The normalized response with a numeric [issue], normalized again. *)
Lemma normalize_idempotent_witness :
  let normalized := Sample.normalized Test.issueSchema Sample.numericIssue in
  normalize Test.issueSchema (JObj normalized) = Normal normalized.
Proof.
  apply (normalize_idempotent Test.issueSchema Sample.numericIssue).
  vm_compute. reflexivity.
Defined.

(** X15: normalization does not compare a value with the declared type of its
    field: under a field without enumeration and not named [__proto__], a
    value of the response other than [undefined] is kept as it is, unless it
    is an array under an array field. *)
Theorem normalize_no_type_check schema parsed normalized k field v :
  k ≠ "__proto__" →
  normalize schema parsed = Normal normalized →
  properties schema !! k = Some field →
  Schema.enum field = None →
  Schema.type field ≠ TArray ∨ isArray v = false →
  ownProperty parsed k = Normal (Some v) →
  v ≠ JUndefined →
  normalized !! k = Some v.
Proof.
  intros _ Hrun Hk He Harr Hown Hv.
  rewrite (normalize_Normal_lookup _ _ _ k Hrun), Hk. simpl. f_equal.
  unfold fieldValue. rewrite Hown. unfold normalizeValue. rewrite He.
  destruct field as [d e|d e|d e|d e items|d e ps r];
    destruct v as [| |b|x|str|entries|o]; try done.
  destruct Harr as [Harr|Harr]; [by destruct Harr|done].
Qed.

(** A number under a field of type string. *)
Lemma normalize_no_type_check_witness :
  Schema.type (StringSchemaNode (Some "one-sentence summary") None) = TString
  ∧ Sample.normalized Test.issueSchema Sample.numericIssue !! "issue"
    = Some (JNum 4617315517961601024).
Proof.
  split; [reflexivity|].
  apply (normalize_no_type_check Test.issueSchema Sample.numericIssue _ "issue"
           (StringSchemaNode (Some "one-sentence summary") None)).
  - discriminate.
  - vm_compute. reflexivity.
  - vm_compute. reflexivity.
  - reflexivity.
  - left. discriminate.
  - vm_compute. reflexivity.
  - discriminate.
Defined.

(** * The prompts and the mock client *)

Lemma append_cons c s b : (String c s ++ b)%string = String c (s ++ b)%string.
Proof. reflexivity. Qed.

Lemma append_nil b : (EmptyString ++ b)%string = b.
Proof. reflexivity. Qed.

Lemma prefix_app tok s b :
  String.prefix tok s = true → String.prefix tok (s ++ b) = true.
Proof.
  revert s. induction tok as [|a tok IH]; intros [|c s];
    rewrite ?append_cons, ?append_nil; simpl; try done.
  - by destruct b.
  - destruct (Ascii.ascii_dec a c); [apply IH|done].
Qed.

Lemma indexOf_aux_shift tok s k k' :
  is_Some (JsString.indexOf_aux tok s k) → is_Some (JsString.indexOf_aux tok s k').
Proof.
  revert k k'. induction s as [|c s IH]; intros k k'; cbn [JsString.indexOf_aux].
  - destruct (String.prefix tok EmptyString); [eauto|]. by intros [? ?].
  - destruct (String.prefix tok (String c s)); [eauto|]. apply IH.
Qed.

Lemma indexOf_aux_prefix_Some tok s k :
  String.prefix tok s = true → JsString.indexOf_aux tok s k = Some k.
Proof. intros H. destruct s; cbn [JsString.indexOf_aux]; by rewrite H. Qed.

Lemma indexOf_aux_app_r tok s b k :
  is_Some (JsString.indexOf_aux tok s k) →
  is_Some (JsString.indexOf_aux tok (s ++ b) k).
Proof.
  revert k. induction s as [|c s IH]; intros k.
  - cbn [JsString.indexOf_aux].
    destruct (String.prefix tok EmptyString) eqn:E; [|by intros [? ?]].
    intros _. apply (prefix_app _ _ b) in E.
    rewrite (indexOf_aux_prefix_Some _ _ _ E). eauto.
  - cbn [JsString.indexOf_aux].
    destruct (String.prefix tok (String c s)) eqn:E.
    + intros _. apply (prefix_app _ _ b) in E.
      rewrite (indexOf_aux_prefix_Some _ _ _ E). eauto.
    + intros H%IH. rewrite append_cons. cbn [JsString.indexOf_aux].
      destruct (String.prefix tok (String c (s ++ b))); eauto.
Qed.

Lemma indexOf_aux_app_l tok a s k :
  is_Some (JsString.indexOf_aux tok s k) →
  is_Some (JsString.indexOf_aux tok (a ++ s) k).
Proof.
  revert k. induction a as [|c a IH]; intros k H; [done|].
  rewrite append_cons. cbn [JsString.indexOf_aux].
  destruct (String.prefix tok (String c (a ++ s))); [eauto|].
  apply IH. by eapply indexOf_aux_shift.
Qed.

Lemma includes_indexOf_aux s needle :
  Test.includes s needle = true ↔ is_Some (JsString.indexOf_aux needle s 0).
Proof.
  unfold Test.includes, JsString.indexOf. simpl. apply bool_decide_eq_true.
Qed.

(** A text includes what a part of it includes. *)
Lemma includes_app_l a s needle :
  Test.includes s needle = true → Test.includes (a ++ s) needle = true.
Proof. rewrite !includes_indexOf_aux. apply indexOf_aux_app_l. Qed.

Lemma includes_app_r s b needle :
  Test.includes s needle = true → Test.includes (s ++ b) needle = true.
Proof. rewrite !includes_indexOf_aux. apply indexOf_aux_app_r. Qed.

Lemma promptOf_requestBodyFor clientParams defaultRequestParams llm prompt :
  Test.promptOf (requestBodyFor clientParams defaultRequestParams llm prompt) = prompt.
Proof.
  destruct (requestBodyFor_lookup clientParams defaultRequestParams llm prompt)
    as (_ & Hmsg & _).
  unfold Test.promptOf. rewrite Hmsg.
  by rewrite lookup_insert_ne, lookup_insert_eq.
Qed.

Lemma slice_first_twelve {A} (items : list A) :
  JsArray.slice items 0 12 = take 12 items.
Proof.
  unfold JsArray.slice, JsArray.relIndex. simpl.
  rewrite (Z.min_l 0 (Z.of_nat (length items))) by lia.
  rewrite Z.sub_0_r. change (Z.to_nat 0) with 0. rewrite drop_0.
  destruct (decide (12 ≤ length items)) as [H|H].
  - f_equal. lia.
  - rewrite !take_ge; [done|lia..].
Qed.

Lemma compactEntries_elem entries k v' :
  (k, v') ∈ Prompt.compactEntries entries
  ↔ ∃ v, (k, v) ∈ entries ∧ nullish v = false
         ∧ v' = match v with JArr items => JArr (take 12 items) | _ => v end.
Proof.
  unfold Prompt.compactEntries. rewrite list_elem_of_omap. split.
  - intros ([k0 v] & Hin & Hv). destruct (nullish v) eqn:Hn; [done|].
    injection Hv as -> <-. exists v. split_and!; [done..|].
    destruct v; try done. by rewrite slice_first_twelve.
  - intros (v & Hin & Hn & ->). exists (k, v). split; [done|]. rewrite Hn.
    do 2 f_equal. destruct v; try done. by rewrite slice_first_twelve.
Qed.

Lemma compactEntries_keys entries :
  (Prompt.compactEntries entries).*1 `sublist_of` entries.*1.
Proof.
  induction entries as [|[k v] entries IH]; simpl; [done|].
  unfold Prompt.compactEntries in *. simpl.
  destruct (nullish v); simpl; by constructor.
Qed.

Section prompts.

Variable JSON_stringify : JsValue → string.
Variable JSON_stringify_schema : SchemaField → string.
Variable JSON_stringify_data : list (string * JsValue) → string.
Variable Object_entries : ∀ A : Type, gmap string A → list (string * A).
Variable clientParams : JsObject.
Variable defaultRequestParams : option JsObject.

#[local] Abbreviation windowPrompt :=
  (Prompt.buildPromptForChunk JSON_stringify Object_entries).
#[local] Abbreviation reductionPrompt :=
  (Prompt.buildFinalReductionPrompt JSON_stringify_schema JSON_stringify_data
                                    Object_entries).

(** X16: the compacted form of a window result in the reduction prompt has the
    id of the result and, for each key once, the values of the result that are
    neither [null] nor [undefined], arrays cut to their first twelve elements
    and every other value as it is. *)
Theorem compact_keeps_non_null rs i cr :
  (∀ m : JsObject, Object_entries JsValue m ≡ₚ map_to_list m) →
  rs !! i = Some cr →
  ∃ cc,
    Prompt.compact Object_entries rs !! i = Some cc
    ∧ Compacted.id cc = ChunkResult.chunkId cr
    ∧ NoDup (Compacted.data cc).*1
    ∧ ∀ k v',
        (k, v') ∈ Compacted.data cc
        ↔ ∃ v, ChunkResult.parsed cr !! k = Some v
               ∧ nullish v = false
               ∧ v' = match v with
                      | JArr items => JArr (take 12 items)
                      | _ => v
                      end.
Proof.
  intros Hentries Hi. unfold Prompt.compact. rewrite list_lookup_fmap, Hi. simpl.
  eexists. split; [done|]. simpl. split_and!; [done| |].
  - eapply sublist_NoDup; [|apply compactEntries_keys].
    rewrite Hentries. apply NoDup_fst_map_to_list.
  - intros k v'. rewrite compactEntries_elem.
    split; intros (v & Hin & Hrest); exists v; split; try done.
    + rewrite Hentries in Hin. by apply elem_of_map_to_list.
    + rewrite Hentries. by apply elem_of_map_to_list.
Qed.

(** X17: the mock client of the tests answers every reduction request with its
    final answer and no window request with it, whatever the schema, the
    window, the window results and the request parameters: the reduction
    prompt starts with the phrase the mock looks for, and the window prompt
    does not. *)
Theorem mock_tells_the_prompts_apart schema llm rs chunk :
  Test.mockOpenAI
    (reductionRequest reductionPrompt clientParams defaultRequestParams schema llm rs)
  = CallResolved (Some Test.finalText)
  ∧ Test.mockOpenAI
      (chunkRequest windowPrompt clientParams defaultRequestParams schema llm chunk)
    ≠ CallResolved (Some Test.finalText).
Proof.
  unfold reductionRequest, chunkRequest, Test.mockOpenAI.
  rewrite !promptOf_requestBodyFor. split; [reflexivity|].
  unfold Prompt.buildPromptForChunk.
  match goal with |- context [String.prefix ?a ?b] =>
    change (String.prefix a b) with false end.
  cbv iota.
  repeat case_match; intros [= Heq]; vm_compute in Heq; discriminate Heq.
Qed.

(** X18: the mock client of the tests answers the request of every window whose
    text includes the marker CHUNK1 with its first answer: the window prompt
    includes the text of the window. *)
Theorem mock_detects_marker schema llm chunk :
  Test.includes (Chunk.text chunk) "CHUNK1" = true →
  Test.mockOpenAI
    (chunkRequest windowPrompt clientParams defaultRequestParams schema llm chunk)
  = CallResolved (Some Test.chunk1Text).
Proof.
  intros Hin. unfold chunkRequest, Test.mockOpenAI.
  rewrite promptOf_requestBodyFor.
  unfold Prompt.buildPromptForChunk.
  match goal with |- context [String.prefix ?a ?b] =>
    change (String.prefix a b) with false end.
  cbv iota.
  match goal with |- context [Test.includes ?p "CHUNK1"] =>
    assert (Test.includes p "CHUNK1" = true) as -> end; [|done].
  repeat first [ apply (includes_app_r (Chunk.text chunk)); exact Hin
               | apply includes_app_l ].
Qed.

End prompts.

(** A result with a [null] field and an array of fourteen items. *)
Lemma compact_keeps_non_null_witness :
  ∃ cc,
    Prompt.compact Sample.Object_entries [Sample.longResult] !! 0 = Some cc
    ∧ Compacted.id cc = 3
    ∧ NoDup (Compacted.data cc).*1
    ∧ ∀ k v',
        (k, v') ∈ Compacted.data cc
        ↔ ∃ v, ChunkResult.parsed Sample.longResult !! k = Some v
               ∧ nullish v = false
               ∧ v' = match v with
                      | JArr items => JArr (take 12 items)
                      | _ => v
                      end.
Proof.
  apply (compact_keeps_non_null Sample.Object_entries [Sample.longResult] 0
           Sample.longResult); [|reflexivity].
  intros m. reflexivity.
Defined.

(** A window made of the first five words of the text of the test. *)
Lemma mock_detects_marker_witness :
  Test.mockOpenAI
    (chunkRequest (Prompt.buildPromptForChunk Sample.JSON_stringify Sample.Object_entries)
                  Test.clientParams Test.defaultRequestParams Test.issueSchema ∅
                  Sample.markedChunk)
  = CallResolved (Some Test.chunk1Text).
Proof.
  apply mock_detects_marker. reflexivity.
Defined.

(** * More on [extract] *)

Lemma Test_run_returns openai sched :
  (Test.run openai sched).1 = Normal (Test.resultOf (Test.run openai sched)) →
  Test.run openai sched
  = (Normal (Test.resultOf (Test.run openai sched)), (Test.run openai sched).2).
Proof. intros H. rewrite <-H. apply surjective_pairing. Qed.

Lemma Test_chunks_built :
  chunksOf Test.wordTokenizer Test.text Test.opts = Normal Test.chunks.
Proof. vm_compute. reflexivity. Qed.


Section extract_more.

Variable JSON_parse : string → option JsValue.
Variable defaultTokenizer : string → list string.
Variable buildPromptForChunk : Chunk.t → SchemaField → string.
Variable buildFinalReductionPrompt : list ChunkResult.t → SchemaField → string.
Variable openai : JsObject → CallOutcome.
Variable clientParams : JsObject.
Variable defaultRequestParams : option JsObject.

#[local] Abbreviation request :=
  (chunkRequest buildPromptForChunk clientParams defaultRequestParams).
#[local] Abbreviation result :=
  (chunkResult JSON_parse buildPromptForChunk openai clientParams
               defaultRequestParams).
#[local] Abbreviation settled :=
  (settled JSON_parse buildPromptForChunk openai clientParams
           defaultRequestParams).
#[local] Abbreviation reduction :=
  (reductionRequest buildFinalReductionPrompt clientParams defaultRequestParams).
#[local] Abbreviation extract :=
  (extract JSON_parse defaultTokenizer buildPromptForChunk
           buildFinalReductionPrompt openai clientParams defaultRequestParams).

(** The text that a worker parses, and what it normalizes. *)
Lemma workerSettle_Normal sch chunk outcome cr :
  workerSettle JSON_parse sch chunk outcome = Normal cr →
  ChunkResult.chunkId cr = Chunk.id chunk
  ∧ ∃ parsed, normalize sch parsed = Normal (ChunkResult.parsed cr).
Proof.
  unfold workerSettle.
  match goal with |- context [normalize sch ?v] =>
    destruct (normalize sch v) as [n| |] eqn:E end; simpl; [|done..].
  intros [= <-]. simpl. eauto.
Qed.

(** A worker throws exactly on a response that parses to [null], when the
    schema declares a field. *)
Lemma workerSettle_Throw sch chunk outcome :
  workerSettle JSON_parse sch chunk outcome = Throw TypeError
  ↔ properties sch ≠ ∅ ∧ answersNull JSON_parse outcome.
Proof.
  unfold workerSettle, answersNull. split.
  - destruct outcome as [|[content|]]; simpl;
      try (rewrite normalize_empty_object; done).
    destruct (String.eqb_spec content EmptyString) as [->|Hne]; simpl;
      [rewrite normalize_empty_object; done|].
    destruct (JSON_parse content) as [v|] eqn:Hparse;
      [|rewrite normalize_empty_object; done].
    destruct (nullish v) eqn:Hv.
    + destruct (decide (properties sch = ∅)) as [He|He].
      * rewrite normalize_no_fields by done. done.
      * intros _. split; [done|]. exists content, v. done.
    + destruct (normalize_Normal sch v Hv) as (n & -> & _). done.
  - intros (Hne & content & v & -> & Hc & Hparse & Hv). simpl.
    apply String.eqb_neq in Hc. rewrite Hc, Hparse. simpl.
    by rewrite normalize_Throw.
Qed.

(** X19: the outcome of [extract] does not depend on the order in which the
    pending calls complete, and when it returns the same requests have been
    sent in the same order. *)
Theorem extract_schedule_independent sched sched' text opts :
  (extract sched text opts).1 = (extract sched' text opts).1
  ∧ ((∃ res, (extract sched text opts).1 = Normal res) →
     (extract sched text opts).2 = (extract sched' text opts).2).
Proof.
  destruct (schema opts) as [sch|] eqn:Hsch;
    [|unfold extract; by rewrite Hsch].
  destruct (chunksOf defaultTokenizer text opts) as [chunks|e|] eqn:Hchunks.
  - destruct (extract_run JSON_parse defaultTokenizer buildPromptForChunk
                buildFinalReductionPrompt openai clientParams defaultRequestParams
                sched text opts sch chunks Hsch Hchunks)
      as [[Hall ->]|[(c & Hc & Hthrow) [n ->]]];
    destruct (extract_run JSON_parse defaultTokenizer buildPromptForChunk
                buildFinalReductionPrompt openai clientParams defaultRequestParams
                sched' text opts sch chunks Hsch Hchunks)
      as [[Hall' ->]|[(c' & Hc' & Hthrow') [n' ->]]]; simpl.
    + done.
    + rewrite Forall_forall in Hall. rewrite (Hall c' Hc') in Hthrow'. done.
    + rewrite Forall_forall in Hall'. rewrite (Hall' c Hc) in Hthrow. done.
    + split; [done|]. by intros [res ?].
  - unfold extract, chunksOf in *. by rewrite Hsch, Hchunks.
  - unfold extract, chunksOf in *. by rewrite Hsch, Hchunks.
Qed.

(** X20: once the windows are built, [extract] is rejected with a [TypeError]
    exactly when the schema declares a field and the response for some window
    is non-empty text that parses to [null]; otherwise it returns. *)
Theorem extract_rejected_by_null_response sched text opts sch chunks :
  schema opts = Some sch →
  chunksOf defaultTokenizer text opts = Normal chunks →
  let llm := default ∅ (llmCallOptions opts) in
  ((extract sched text opts).1 = Throw TypeError
   ↔ properties sch ≠ ∅
     ∧ ∃ c, c ∈ chunks ∧ answersNull JSON_parse (openai (request sch llm c)))
  ∧ ((extract sched text opts).1 ≠ Throw TypeError →
     ∃ res, (extract sched text opts).1 = Normal res).
Proof.
  intros Hsch Hchunks llm.
  destruct (extract_run JSON_parse defaultTokenizer buildPromptForChunk
              buildFinalReductionPrompt openai clientParams defaultRequestParams
              sched text opts sch chunks Hsch Hchunks)
    as [[Hall ->]|[(c & Hc & Hthrow) [n ->]]]; simpl.
  - split; [|eauto]. split; [done|].
    intros (Hne & c & Hc & Hnull). rewrite Forall_forall in Hall.
    pose proof (Hall c Hc) as Hres. unfold chunkResult in Hres.
    assert (workerSettle JSON_parse sch c (openai (request sch llm c)) = Throw TypeError)
      as Hthrow by (by apply workerSettle_Throw).
    fold llm in Hres. congruence.
  - split; [|done]. split; [intros _|done].
    apply workerSettle_Throw in Hthrow as [Hne Hnull]. eauto.
Qed.

(** X21: a returning [extract] has sent one request per window, in window
    order whatever the completion order and the number of workers, followed by
    one reduction request built from the returned window results: the number
    of requests is [chunkCount + 1]. *)
Theorem extract_requests_in_window_order sched text opts res log :
  extract sched text opts = (Normal res, log) →
  ∃ sch chunks,
    let llm := default ∅ (llmCallOptions opts) in
    schema opts = Some sch
    ∧ chunksOf defaultTokenizer text opts = Normal chunks
    ∧ log = (request sch llm <$> chunks)
              ++ [reduction sch llm (rawChunkResults (metadata res))]
    ∧ length log = chunkCount (metadata res) + 1
    ∧ length (rawChunkResults (metadata res)) = chunkCount (metadata res).
Proof.
  intros (sch & chunks & Hsch & Hchunks & _ & -> & ->)%extract_Normal.
  exists sch, chunks. cbn [metadata rawChunkResults chunkCount].
  split_and!; try done.
  - rewrite length_app, length_fmap. done.
  - by rewrite length_fmap.
Qed.

(** X22: when the response to the reduction request, the last request sent, is
    non-empty text that parses to an object, [extract] returns this object as
    it is: it is not normalized against the schema. *)
Theorem reduction_object_verbatim sched text opts res log req content o :
  extract sched text opts = (Normal res, log) →
  last log = Some req →
  openai req = CallResolved (Some content) →
  content ≠ EmptyString →
  JSON_parse content = Some (JObj o) →
  json res = o.
Proof.
  intros (sch & chunks & Hsch & Hchunks & _ & -> & ->)%extract_Normal.
  rewrite last_snoc. intros [= <-] Hcall Hc Hparse. cbn [json].
  unfold reduce. rewrite Hcall. simpl.
  apply String.eqb_neq in Hc. rewrite Hc, Hparse. done.
Qed.


(** X24: with a schema, a text that has a token and a window size of zero or
    less, [extract] is rejected with the [TypeError] of [buildChunks] before
    any request is sent. *)
Theorem extract_bad_window_rejects sched text opts :
  is_Some (schema opts) →
  default defaultTokenizer (tokenizer opts) text ≠ [] →
  (default 1500 (chunkTokens opts) ≤ 0)%Z →
  extract sched text opts = (Throw TypeError, []).
Proof.
  intros [sch Hsch] Htok HcT. unfold extract. rewrite Hsch.
  unfold buildChunks, buildChunks_fuel.
  destruct (default defaultTokenizer (tokenizer opts) text) as [|tok rest]; [done|].
  case_decide; [done|]. cbn [length].
  rewrite buildChunks_loop_bad_window; [done|simpl; lia..].
Qed.

(** X25: for a schema that declares no field named [__proto__], the
    provenance returned by [extract] has exactly the keys of the schema; and
    for every schema each of its lists holds ids below [chunkCount], each at
    most once. *)
Theorem provenance_ids_in_range sched text opts res log sch :
  extract sched text opts = (Normal res, log) →
  schema opts = Some sch →
  (properties sch !! "__proto__" = None →
   dom (perFieldProvenance (metadata res)) = dom (properties sch))
  ∧ ∀ k p, perFieldProvenance (metadata res) !! k = Some p →
           NoDup (sourceChunks p)
           ∧ ∀ id, id ∈ sourceChunks p → id < chunkCount (metadata res).
Proof.
  intros (sch' & chunks & Hsch' & Hchunks & _ & -> & _)%extract_Normal Hsch.
  assert (sch' = sch) as -> by congruence.
  cbn [metadata perFieldProvenance chunkCount]. split.
  - intros _. apply set_eq. intros k. rewrite !elem_of_dom, buildProvenance_lookup.
    by rewrite fmap_is_Some.
  - intros k p. rewrite buildProvenance_lookup.
    destruct (properties sch !! k); [|done]. simpl. intros [= <-]. simpl.
    pose proof (settled_ids JSON_parse defaultTokenizer buildPromptForChunk openai
                  clientParams defaultRequestParams text opts sch
                  (default ∅ (llmCallOptions opts)) chunks Hchunks) as Hkeys.
    rewrite length_fmap in Hkeys.
    assert (sourceChunksOf (settled sch (default ∅ (llmCallOptions opts)) <$> chunks) k
            `sublist_of` seq 0 (length chunks)) as Hsub.
    { rewrite <-Hkeys. unfold sourceChunksOf. apply fmap_sublist, sublist_filter. }
    split.
    + eapply sublist_NoDup; [|exact Hsub]. apply NoDup_seq.
    + intros id Hid. eapply elem_of_sublist in Hid; [|exact Hsub].
      apply elem_of_seq in Hid. lia.
Qed.

(** X26: for a schema that declares no field named [__proto__], every window
    result returned by [extract] has exactly the keys of the schema; and for
    every schema it has no value [undefined], and under a field that declares
    an enumeration [null] or a member of it. *)
Theorem window_results_schema_shaped sched text opts res log sch r :
  extract sched text opts = (Normal res, log) →
  schema opts = Some sch →
  r ∈ rawChunkResults (metadata res) →
  (properties sch !! "__proto__" = None →
   dom (ChunkResult.parsed r) = dom (properties sch))
  ∧ ∀ k field v,
      properties sch !! k = Some field →
      ChunkResult.parsed r !! k = Some v →
      v ≠ JUndefined
      ∧ ∀ allowed, Schema.enum field = Some allowed →
                   v = JNull ∨ matchesEnum allowed v = true.
Proof.
  intros (sch' & chunks & Hsch' & Hchunks & Hall & -> & _)%extract_Normal Hsch.
  assert (sch' = sch) as -> by congruence.
  cbn [metadata rawChunkResults].
  intros (c & -> & Hc)%list_elem_of_fmap.
  rewrite Forall_forall in Hall. pose proof (Hall c Hc) as Hres.
  apply workerSettle_Normal in Hres as (_ & parsed & Hnorm).
  split.
  - intros _. apply set_eq. intros k.
    rewrite !elem_of_dom, (normalize_Normal_lookup _ _ _ k Hnorm).
    by rewrite fmap_is_Some.
  - intros k field v Hk. rewrite (normalize_Normal_lookup _ _ _ k Hnorm), Hk.
    simpl. intros [= <-]. split; [apply normalizeValue_defined|].
    intros allowed He.
    destruct (normalizeValue_enum field allowed (fieldValue parsed k) He)
      as [->|[-> Hm]]; auto.
Qed.

(** X27: the result that [extract] returns for a window carries the id of the
    window and, as [raw], the text of the response to the request of the
    window, parsable or not; [raw] is empty when the call failed or the
    response had no content. *)
Theorem window_result_raw_text sched text opts res log sch chunks i c :
  extract sched text opts = (Normal res, log) →
  schema opts = Some sch →
  chunksOf defaultTokenizer text opts = Normal chunks →
  chunks !! i = Some c →
  ∃ r,
    rawChunkResults (metadata res) !! i = Some r
    ∧ ChunkResult.chunkId r = Chunk.id c
    ∧ ChunkResult.raw r
      = match openai (request sch (default ∅ (llmCallOptions opts)) c) with
        | CallResolved (Some content) => content
        | _ => EmptyString
        end.
Proof.
  intros (sch' & chunks' & Hsch' & Hchunks' & Hall & -> & _)%extract_Normal
         Hsch Hchunks Hi.
  assert (sch' = sch) as -> by congruence.
  assert (chunks' = chunks) as -> by congruence.
  cbn [metadata rawChunkResults]. eexists.
  rewrite list_lookup_fmap, Hi. split; [reflexivity|].
  rewrite Forall_forall in Hall.
  pose proof (Hall c (list_elem_of_lookup_2 _ _ _ Hi)) as Hres.
  destruct (workerSettle_Normal _ _ _ _ Hres) as [Hid _]. split; [exact Hid|].
  unfold chunkResult, workerSettle in Hres.
  destruct (normalize sch _) as [n| |]; simpl in Hres; [|done..].
  injection Hres as Hres. rewrite <-Hres. simpl.
  by destruct (openai _) as [|[content|]].
Qed.

End extract_more.

(** The third window of the test gets the response [null]. *)
Lemma extract_rejected_by_null_response_witness :
  (Test.run Test.nullOpenAI Test.reversed).1 = Throw TypeError.
Proof.
  destruct (extract_rejected_by_null_response Test.JSON_parse Test.wordTokenizer
              Test.buildPromptForChunk Test.buildFinalReductionPrompt Test.nullOpenAI
              Test.clientParams Test.defaultRequestParams Test.reversed Test.text
              Test.opts Test.issueSchema Test.chunks eq_refl Test_chunks_built)
    as [[_ Hrejected] _].
  apply Hrejected. split.
  - intros Hempty. apply (f_equal (λ m, m !! "issue")) in Hempty.
    vm_compute in Hempty. discriminate Hempty.
  - exists (default (Chunk.mk 0 EmptyString 0 0 []) (Test.chunks !! 2)). split.
    + apply (list_elem_of_lookup_2 _ 2). vm_compute. reflexivity.
    + exists "null", JNull. split_and!; [vm_compute; reflexivity|discriminate|reflexivity..].
Defined.

(** The test with the workers completing last first: four requests for
    three windows. *)
Lemma extract_requests_in_window_order_witness :
  let run := Test.run Test.mockOpenAI Test.reversed in
  run = (Normal (Test.resultOf run), run.2)
  ∧ length run.2 = chunkCount (metadata (Test.resultOf run)) + 1
  ∧ chunkCount (metadata (Test.resultOf run)) = 3.
Proof.
  intros run.
  assert (run = (Normal (Test.resultOf run), run.2)) as Hrun
    by (apply Test_run_returns; vm_compute; reflexivity).
  split; [exact Hrun|].
  destruct (extract_requests_in_window_order _ _ _ _ _ _ _ _ _ _ _ _ Hrun)
    as (sch & chunks & _ & _ & _ & Hlen & _).
  split; [exact Hlen|]. vm_compute. reflexivity.
Defined.

(** The test: the final object is the answer of the mock client to the
    reduction request. *)
Lemma reduction_object_verbatim_witness :
  let run := Test.run Test.mockOpenAI Test.inOrder in
  run = (Normal (Test.resultOf run), run.2)
  ∧ Some (JObj (json (Test.resultOf run))) = Test.JSON_parse Test.finalText.
Proof.
  intros run.
  assert (run = (Normal (Test.resultOf run), run.2)) as Hrun
    by (apply Test_run_returns; vm_compute; reflexivity).
  split; [exact Hrun|].
  destruct (extract_Normal _ _ _ _ _ _ _ _ _ _ _ _ Hrun)
    as (sch & chunks & _ & _ & _ & _ & Hlog).
  erewrite (reduction_object_verbatim _ _ _ _ _ _ _ _ _ _ _ _ _ Test.finalText
              (<[ "issue" := JStr "Combined issue from chunks" ]>
               (<[ "next_moves" := Test.moves ["Do X"; "Do Y"] ]>
               (<[ "status" := JStr "closed" ]> ∅))) Hrun).
  - reflexivity.
  - rewrite Hlog. apply last_snoc.
  - unfold reductionRequest, Test.mockOpenAI.
    rewrite promptOf_requestBodyFor. reflexivity.
  - discriminate.
  - reflexivity.
Defined.


(** The test with a window size of zero. *)
Lemma extract_bad_window_rejects_witness :
  extract Test.JSON_parse Test.wordTokenizer Test.buildPromptForChunk
          Test.buildFinalReductionPrompt Test.mockOpenAI Test.clientParams
          Test.defaultRequestParams Test.inOrder Test.text (Sample.optsWith 0)
  = (Throw TypeError, []).
Proof.
  apply extract_bad_window_rejects.
  - eexists. reflexivity.
  - vm_compute. discriminate.
  - simpl. lia.
Defined.

(** The provenance of the test, whose schema has no field named
    [__proto__]. *)
Lemma provenance_ids_in_range_witness :
  let run := Test.run Test.mockOpenAI Test.reversed in
  let provenance := perFieldProvenance (metadata (Test.resultOf run)) in
  run = (Normal (Test.resultOf run), run.2)
  ∧ dom provenance = dom (properties Test.issueSchema)
  ∧ ∀ k p, provenance !! k = Some p →
           NoDup (sourceChunks p)
           ∧ ∀ id, id ∈ sourceChunks p → id < chunkCount (metadata (Test.resultOf run)).
Proof.
  intros run provenance.
  assert (run = (Normal (Test.resultOf run), run.2)) as Hrun
    by (apply Test_run_returns; vm_compute; reflexivity).
  split; [exact Hrun|].
  destruct (provenance_ids_in_range _ _ _ _ _ _ _ _ _ _ _ _ Test.issueSchema Hrun eq_refl)
    as [Hkeys Hids].
  split; [|exact Hids]. apply Hkeys. vm_compute. reflexivity.
Defined.

(** The window results of the test, whose schema has no field named
    [__proto__]. *)
Lemma window_results_schema_shaped_witness :
  let run := Test.run Test.mockOpenAI Test.reversed in
  run = (Normal (Test.resultOf run), run.2)
  ∧ ∀ r, r ∈ rawChunkResults (metadata (Test.resultOf run)) →
         dom (ChunkResult.parsed r) = dom (properties Test.issueSchema)
         ∧ ∀ k field v,
             properties Test.issueSchema !! k = Some field →
             ChunkResult.parsed r !! k = Some v →
             v ≠ JUndefined
             ∧ ∀ allowed, Schema.enum field = Some allowed →
                          v = JNull ∨ matchesEnum allowed v = true.
Proof.
  intros run.
  assert (run = (Normal (Test.resultOf run), run.2)) as Hrun
    by (apply Test_run_returns; vm_compute; reflexivity).
  split; [exact Hrun|]. intros r Hr.
  destruct (window_results_schema_shaped _ _ _ _ _ _ _ _ _ _ _ _ Test.issueSchema r
              Hrun eq_refl Hr) as [Hkeys Hvalues].
  split; [|exact Hvalues]. apply Hkeys. vm_compute. reflexivity.
Defined.

(** The second window of the test. *)
Lemma window_result_raw_text_witness :
  let run := Test.run Test.mockOpenAI Test.reversed in
  run = (Normal (Test.resultOf run), run.2)
  ∧ ∃ r, rawChunkResults (metadata (Test.resultOf run)) !! 1 = Some r
         ∧ ChunkResult.chunkId r = 1
         ∧ ChunkResult.raw r = Test.chunk2Text.
Proof.
  intros run.
  assert (run = (Normal (Test.resultOf run), run.2)) as Hrun
    by (apply Test_run_returns; vm_compute; reflexivity).
  split; [exact Hrun|].
  destruct (window_result_raw_text _ _ _ _ _ _ _ _ _ _ _ _ Test.issueSchema Test.chunks 1
              (default (Chunk.mk 0 EmptyString 0 0 []) (Test.chunks !! 1))
              Hrun eq_refl Test_chunks_built)
    as (r & Hr & Hid & Hraw); [vm_compute; reflexivity|].
  exists r. split; [exact Hr|]. split; [exact Hid|].
  rewrite Hraw. vm_compute. reflexivity.
Defined.

(** * The worker pool, step by step *)

Lemma awaitingFrom_length w ws : length (awaitingFrom w ws) ≤ length ws.
Proof.
  revert w. induction ws as [|[c o|] ws IH]; intros w; simpl; [done|..].
  - specialize (IH (S w)). lia.
  - specialize (IH (S w)). lia.
Qed.

Lemma awaitingFrom_length_chunks w ws :
  length (awaitingFrom w ws) = length (awaitingChunks ws).
Proof. by rewrite <-(awaitingFrom_chunks w), !length_fmap. Qed.

Section pool_steps.

Variable JSON_parse : string → option JsValue.
Variable buildPromptForChunk : Chunk.t → SchemaField → string.
Variable openai : JsObject → CallOutcome.
Variable clientParams : JsObject.
Variable defaultRequestParams : option JsObject.
Variable schema : SchemaField.
Variable llmCallOptions : JsObject.
Variable chunks : list Chunk.t.

#[local] Abbreviation spawnWorkers :=
  (spawn buildPromptForChunk openai clientParams defaultRequestParams
         schema llmCallOptions chunks).
#[local] Abbreviation run :=
  (runPool JSON_parse buildPromptForChunk openai clientParams
           defaultRequestParams schema llmCallOptions chunks).
#[local] Abbreviation PoolInv :=
  (PoolInv JSON_parse buildPromptForChunk openai clientParams
           defaultRequestParams schema llmCallOptions chunks).
#[local] Abbreviation step :=
  (poolStep JSON_parse buildPromptForChunk openai clientParams
            defaultRequestParams schema llmCallOptions chunks).
#[local] Abbreviation reaches :=
  (poolReaches JSON_parse buildPromptForChunk openai clientParams
               defaultRequestParams schema llmCallOptions chunks).

Lemma poolStep_inv p p' done :
  step p p' → PoolInv p done →
  ∃ c, PoolInv p' (done ++ [c]) ∧ length (workers p') = length (workers p).
Proof.
  intros [w c o q q' Hin Hres] Hinv.
  apply awaitingFrom_lookup in Hin as [_ Hw]. rewrite Nat.sub_0_r in Hw.
  destruct (resume_inv JSON_parse buildPromptForChunk openai clientParams
              defaultRequestParams schema llmCallOptions chunks w c o q done Hinv Hw)
    as [(q'' & Hres' & Hinv' & Hlen)|(Hthrow & _)]; [|congruence].
  exists c. assert (q'' = q') as -> by congruence. done.
Qed.

Lemma poolReaches_inv wcount p :
  reaches wcount p → ∃ done, PoolInv p done ∧ length (workers p) = wcount.
Proof.
  unfold poolReaches. revert p. apply rtc_ind_r.
  - exists []. apply (spawn_inv _ _ _ _ _ _ _ _ wcount pool0), pool0_inv.
  - intros p p' Hreach Hstep (done & Hinv & Hlen).
    destruct (poolStep_inv p p' done Hstep Hinv) as (c & Hinv' & Hlen').
    exists (done ++ [c]). split; [done|lia].
Qed.

(** The runs of [runPool] are sequences of pool steps. *)
Lemma runPool_steps fuel sched t p :
  match run fuel sched t p with
  | AllSettled p' => rtc step p p'
  | WorkerThrew _ p' => rtc step p p'
  | PoolOutOfFuel => True
  end.
Proof.
  revert t p. induction fuel as [|fuel IH]; intros t p; cbn [runPool];
    destruct (awaitingFrom 0 (workers p)) as [|a rest] eqn:Ea; try done.
  destruct (lookup_lt_is_Some_2 (a :: rest) (sched t `mod` length (a :: rest)))
    as [[[w c] o] Hx].
  { apply Nat.mod_upper_bound. done. }
  rewrite (nth_lookup_Some _ _ a _ Hx).
  apply list_elem_of_lookup_2 in Hx. rewrite <-Ea in Hx.
  destruct (workerResume _ _ _ _ _ _ _ _ w c o p) as [p'| |] eqn:Hres; try done.
  specialize (IH (S t) p').
  destruct (runPool _ _ _ _ _ _ _ _ fuel sched (S t) p') as [q|e q|]; [| |done].
  - eapply rtc_l; [|exact IH]. by econstructor.
  - eapply rtc_l; [|exact IH]. by econstructor.
Qed.

(** X28: in every state that the pool of workers of [extract] goes through, in
    any completion order, the number of calls in flight is at most
    [max(1, concurrency)] and at most the number of windows (or one), and the
    calls sent so far are those whose results have been pushed and those in
    flight. *)
Theorem pool_concurrency_bound (concurrency : Z) p :
  let wcount := Z.to_nat (Z.max 1 (Z.min concurrency (Z.of_nat (length chunks)))) in
  reaches wcount p →
  (Z.of_nat (inFlight p) ≤ Z.max 1 concurrency)%Z
  ∧ inFlight p ≤ 1 `max` length chunks
  ∧ length (calls p) = length (rawResults p) + inFlight p.
Proof.
  intros wcount (done & [Hraw _ Hclaimed _ _ Hcalls] & Hlen)%poolReaches_inv.
  pose proof (awaitingFrom_length 0 (workers p)) as Hw. fold (inFlight p) in Hw.
  split_and!; [lia|lia|].
  rewrite Hcalls, Hraw, !length_fmap, <-Hclaimed, length_app.
  unfold inFlight. by rewrite awaitingFrom_length_chunks.
Qed.

(** every run of the pool of extract *)
Lemma runPool_reaches fuel sched wcount :
  match run fuel sched 0 (spawnWorkers wcount pool0) with
  | AllSettled p' => reaches wcount p'
  | WorkerThrew _ p' => reaches wcount p'
  | PoolOutOfFuel => True
  end.
Proof. apply runPool_steps. Qed.

End pool_steps.

(** The pool of the test just after its two workers are created. *)
Lemma pool_concurrency_bound_witness :
  let p :=
    spawn Test.buildPromptForChunk Test.mockOpenAI Test.clientParams
          Test.defaultRequestParams Test.issueSchema ∅ Test.chunks 2 pool0 in
  (Z.of_nat (inFlight p) ≤ Z.max 1 2)%Z
  ∧ inFlight p ≤ 1 `max` length Test.chunks
  ∧ length (calls p) = length (rawResults p) + inFlight p.
Proof.
  apply (pool_concurrency_bound Test.JSON_parse Test.buildPromptForChunk Test.mockOpenAI
           Test.clientParams Test.defaultRequestParams Test.issueSchema ∅ Test.chunks 2).
  apply rtc_refl.
Defined.

(** * The pipeline against the mock client *)

Section mock_pipeline.

Variable JSON_stringify : JsValue → string.
Variable JSON_stringify_schema : SchemaField → string.
Variable JSON_stringify_data : list (string * JsValue) → string.
Variable Object_entries : ∀ A : Type, gmap string A → list (string * A).
Variable tokenizer : string → list string.
Variable clientParams : JsObject.
Variable defaultRequestParams : option JsObject.

#[local] Abbreviation windowPrompt :=
  (Prompt.buildPromptForChunk JSON_stringify Object_entries).
#[local] Abbreviation reductionPrompt :=
  (Prompt.buildFinalReductionPrompt JSON_stringify_schema JSON_stringify_data
                                    Object_entries).

(** The mock client answers a window request with one of its three window
    answers, each the text of an object. *)
Lemma mockOpenAI_window schema llm chunk :
  ∃ content o,
    Test.mockOpenAI
      (chunkRequest windowPrompt clientParams defaultRequestParams schema llm chunk)
    = CallResolved (Some content)
    ∧ Test.JSON_parse content = Some (JObj o).
Proof.
  unfold chunkRequest, Test.mockOpenAI. rewrite promptOf_requestBodyFor.
  unfold Prompt.buildPromptForChunk.
  match goal with |- context [String.prefix ?a ?b] =>
    change (String.prefix a b) with false end.
  cbv iota.
  repeat case_match; eexists _, _; (split; [reflexivity|vm_compute; reflexivity]).
Qed.

Lemma mockOpenAI_reduction schema llm rs :
  Test.mockOpenAI
    (reductionRequest reductionPrompt clientParams defaultRequestParams schema llm rs)
  = CallResolved (Some Test.finalText).
Proof.
  unfold reductionRequest, Test.mockOpenAI. rewrite promptOf_requestBodyFor.
  reflexivity.
Qed.

(** X29: against the mock client of the tests and with the prompts of the
    library, [extract] returns for every text, every tokenizer and all options
    with a schema for which the windows can be built, in every completion
    order: the final object is the final answer of the mock, and one request
    per window plus one has been sent. *)
Theorem mock_extract_returns_final_answer sched text opts sch chunks :
  schema opts = Some sch →
  chunksOf tokenizer text opts = Normal chunks →
  ∃ res log,
    extract Test.JSON_parse tokenizer windowPrompt reductionPrompt Test.mockOpenAI
            clientParams defaultRequestParams sched text opts
    = (Normal res, log)
    ∧ Some (JObj (json res)) = Test.JSON_parse Test.finalText
    ∧ length log = length chunks + 1.
Proof.
  intros Hsch Hchunks.
  destruct (extract_run Test.JSON_parse tokenizer windowPrompt reductionPrompt
              Test.mockOpenAI clientParams defaultRequestParams
              sched text opts sch chunks Hsch Hchunks)
    as [[_ ->]|[(c & _ & Hthrow) _]].
  - eexists _, _. split; [reflexivity|]. cbn [json]. split.
    + rewrite mockOpenAI_reduction. reflexivity.
    + by rewrite length_app, length_fmap.
  - apply workerSettle_Throw in Hthrow as (_ & content & v & Hcall & _ & Hparse & Hv).
    destruct (mockOpenAI_window sch (default ∅ (llmCallOptions opts)) c)
      as (content' & o & Hcall' & Hparse').
    rewrite Hcall' in Hcall. injection Hcall as <-.
    rewrite Hparse' in Hparse. injection Hparse as <-. done.
Qed.

End mock_pipeline.

(** The test, with the prompts of the library. *)
Lemma mock_extract_returns_final_answer_witness :
  ∃ res log,
    extract Test.JSON_parse Test.wordTokenizer
            (Prompt.buildPromptForChunk Sample.JSON_stringify Sample.Object_entries)
            (Prompt.buildFinalReductionPrompt (λ _, "{}") (λ _, "{}")
                                              Sample.Object_entries)
            Test.mockOpenAI Test.clientParams Test.defaultRequestParams
            Test.reversed Test.text Test.opts
    = (Normal res, log)
    ∧ Some (JObj (json res)) = Test.JSON_parse Test.finalText
    ∧ length log = length Test.chunks + 1.
Proof.
  apply (mock_extract_returns_final_answer Sample.JSON_stringify (λ _, "{}") (λ _, "{}")
           Sample.Object_entries Test.wordTokenizer Test.clientParams
           Test.defaultRequestParams Test.reversed Test.text Test.opts
           Test.issueSchema Test.chunks eq_refl Test_chunks_built).
Defined.


